(** * Blockly.Cpp: the C++ code generator of cody-pp

    A shallow embedding of [src/js/utils/blockly/cpp.js] and the properties
    of its operations: [init], [finish], [scrubNakedValue], [quote_],
    [scrub_] and [getAdjusted].

    JavaScript strings are modelled as [string], over the ASCII range, so
    that [\s], [\d] and [\w] are the ASCII classes.  The JavaScript numbers
    that the generator manipulates (index offsets, operator orders, folded
    indices) are binary64 numbers.  The model follows them as integers of
    [Z] as long as they are safe integers, of magnitude 2^53 - 1 at most,
    on which the arithmetic of JavaScript is exact and which it prints in
    decimal, with [NaN] kept apart; a number beyond the safe integers is
    [Beyond], of which the model says no more than that it is a number,
    and its text is left to a section variable.  The generator's
    module-scoped fields ([definitions_], [functionNames_], [variableDB_])
    are one explicit [State] record that [init] and [finish] pass along.
    What the module inherits from the Blockly library ([Blockly.Generator],
    [Blockly.Names], [Blockly.isNumber]) and from JavaScript
    ([String.prototype.toLowerCase]) is either a section variable or a
    model in a module of its own. *)

From Stdlib Require Import String Ascii List ZArith Bool Arith Lia.
From Stdlib Require Import DecimalString DecimalNat Relations.
Import ListNotations.

Local Open Scope string_scope.

(** * Part I: the embedding *)

(** ** Text *)

Module Text.

(** The line feed character, written [\n] in the JavaScript source. *)
Definition LF : ascii := "010"%char.

Definition nl : string := String LF EmptyString.

Definition is_nl (c : ascii) : bool := Ascii.eqb c LF.

(** The class [\s] in the ASCII range: tab, line feed, vertical tab, form
    feed, carriage return and space. *)
Definition is_space (c : ascii) : bool :=
  let n := nat_of_ascii c in
  (((9 <=? n) && (n <=? 13)) || (n =? 32))%nat.

(** The class [\d], and the value of a digit. *)
Definition is_digit (c : ascii) : bool :=
  let n := nat_of_ascii c in ((48 <=? n) && (n <=? 57))%nat.

Definition digit_value (c : ascii) : Z := Z.of_nat (nat_of_ascii c) - 48.

(** The class [\w]: letters, digits and the underscore. *)
Definition is_word (c : ascii) : bool :=
  let n := nat_of_ascii c in
  (((65 <=? n) && (n <=? 90)) || ((97 <=? n) && (n <=? 122))
   || is_digit c || (n =? 95))%nat.

(** [s.replace(/c/g, r)] for a one-character pattern [c] and a replacement
    text [r] that holds no [$]-pattern: every occurrence of [c], from left
    to right, gives way to [r]; the replacement is not scanned again. *)
Fixpoint replaceAll (c : ascii) (r : string) (s : string) : string :=
  match s with
  | EmptyString => EmptyString
  | String a s' =>
      if Ascii.eqb a c then r ++ replaceAll c r s'
      else String a (replaceAll c r s')
  end.

(** [l.join(sep)] *)
Fixpoint join (sep : string) (l : list string) : string :=
  match l with
  | [] => ""
  | [x] => x
  | x :: l' => x ++ sep ++ join sep l'
  end.

(** [s.split(c)] for a one-character separator; [cur] is the piece being
    read. *)
Fixpoint split_on (c : ascii) (cur : string) (s : string) : list string :=
  match s with
  | EmptyString => [cur]
  | String a s' =>
      if Ascii.eqb a c then cur :: split_on c "" s'
      else split_on c (cur ++ String a "") s'
  end.

Definition split (c : ascii) (s : string) : list string := split_on c "" s.

(** [strip_prefix x s] is [Some t] exactly when [s = x ++ t]. *)
Fixpoint strip_prefix (x s : string) : option string :=
  match x with
  | EmptyString => Some s
  | String a x' =>
      match s with
      | EmptyString => None
      | String b s' => if Ascii.eqb a b then strip_prefix x' s' else None
      end
  end.

Definition starts_with_nl (s : string) : bool :=
  match s with
  | String c _ => is_nl c
  | EmptyString => false
  end.

Fixpoint all_nl (s : string) : bool :=
  match s with
  | EmptyString => true
  | String c s' => is_nl c && all_nl s'
  end.

(** The last character of [s] is a line feed. *)
Fixpoint ends_nl (s : string) : bool :=
  match s with
  | EmptyString => false
  | String c EmptyString => is_nl c
  | String _ s' => ends_nl s'
  end.

(** [s] without its line feeds. *)
Fixpoint remove_nl (s : string) : string :=
  match s with
  | EmptyString => EmptyString
  | String c s' => if is_nl c then remove_nl s' else String c (remove_nl s')
  end.

(** [n] line feeds. *)
Fixpoint newlines (n : nat) : string :=
  match n with
  | O => EmptyString
  | S n' => String LF (newlines n')
  end.

(** Every run of consecutive line feeds of [s] has at most [k] of them,
    where [cur] line feeds stand right in front of [s]. *)
Fixpoint runs_le (k cur : nat) (s : string) : bool :=
  match s with
  | EmptyString => (cur <=? k)%nat
  | String c s' =>
      if is_nl c then runs_le k (S cur) s'
      else (cur <=? k)%nat && runs_le k 0 s'
  end.

(** The texts [xs] occur in [s] one after the other, in this order and
    without overlap. *)
Fixpoint in_order (xs : list string) (s : string) : Prop :=
  match xs with
  | [] => True
  | x :: xs' => exists p t, s = p ++ x ++ t /\ in_order xs' t
  end.

(** The decision procedure of [in_order]: every start position is tried. *)
Fixpoint occurs (xs : list string) : string -> bool :=
  match xs with
  | [] => fun _ => true
  | x :: xs' =>
      fix scan (s : string) : bool :=
        match strip_prefix x s with
        | Some t => occurs xs' t
        | None => false
        end
        || match s with
           | EmptyString => false
           | String _ s' => scan s'
           end
  end.

Definition contains (x s : string) : Prop := in_order [x] s.

(** Three blank lines in a row: four consecutive line feeds. *)
Definition three_blank_lines (s : string) : Prop := contains (newlines 4) s.

(** Membership in a list of texts, and association lists keyed by texts:
    the objects created by [Object.create(null)], in enumeration order. *)
Definition mem (x : string) (l : list string) : bool :=
  existsb (String.eqb x) l.

Fixpoint lookup {A : Type} (k : string) (l : list (string * A)) : option A :=
  match l with
  | [] => None
  | (k', v) :: l' => if String.eqb k k' then Some v else lookup k l'
  end.

(** [obj[k] = v], for keys that are not array indices: an existing key
    keeps its place in the enumeration, a new one goes last. *)
Fixpoint assign {A : Type} (k : string) (v : A) (l : list (string * A))
  : list (string * A) :=
  match l with
  | [] => [(k, v)]
  | (k', v') :: l' =>
      if String.eqb k k' then (k, v) :: l' else (k', v') :: assign k v l'
  end.

End Text.

Import Text.

(** ** Numbers *)

(** [Number.MAX_SAFE_INTEGER].  The integers from [- MAX_SAFE_INTEGER] to
    [MAX_SAFE_INTEGER] are the safe integers: each is a binary64 number, and
    on them the operations of JavaScript that the source uses are exact.
    [parseInt] gives the integer that the digits denote, [+] and [-] give
    the sum and the difference when these are safe again, unary [-] gives
    the opposite, and the conversion to a string writes the digits in
    full. *)
Definition MAX_SAFE_INTEGER : Z := 2 ^ 53 - 1.

Definition is_safe (z : Z) : bool := (Z.abs z <=? MAX_SAFE_INTEGER)%Z.

(** The numbers that reach [getAdjusted].  [Num z] is the safe integer [z]
    (the two zeros of binary64 are one).  [Beyond] is a number other than
    [NaN] that the model does not follow: one that lies beyond the safe
    integers, where JavaScript rounds to binary64 (and to infinity from
    2^1024 on), or that was computed from such a number. *)
Inductive number : Type :=
  | NaN
  | Num (z : Z)
  | Beyond.

(** The number that JavaScript holds for the integer [z], as far as the
    model follows it. *)
Definition safe (z : Z) : number :=
  if is_safe z then Num z else Beyond.

(** [a + delta] (line 249), where [delta] is given by the integer that it
    is, or that it was rounded from (line 233): the sum is followed when
    both numbers and the sum itself are safe integers. *)
Definition number_add (a : number) (d : Z) : number :=
  match a with
  | NaN => NaN
  | Num z => if is_safe z && is_safe d then safe (z + d) else Beyond
  | Beyond => Beyond
  end.

(** [-a] (line 251), which is exact on every number. *)
Definition number_neg (a : number) : number :=
  match a with
  | NaN => NaN
  | Num z => Num (- z)
  | Beyond => Beyond
  end.

Section Printing.

(** The text that JavaScript gives to a number beyond the safe integers
    when it is concatenated to a string, as a function of the integer that
    the number is or was rounded from: the digits of the nearest binary64
    number, in exponent form from 1e21 on.  The model leaves it open. *)
Variable bigNumberToString : Z -> string.

(** The text of the number [z] when it is concatenated to a string
    (lines 256 and 259): the decimal digits of a safe integer. *)
Definition Number_toString (z : Z) : string :=
  if is_safe z then NilZero.string_of_int (Z.to_int z)
  else bigNumberToString z.

End Printing.

Fixpoint skip_ws (s : string) : string :=
  match s with
  | EmptyString => EmptyString
  | String c s' => if is_space c then skip_ws s' else s
  end.

(** The longest prefix of digits of [s], as digit values, and what follows
    it. *)
Fixpoint span_digits (s : string) : list Z * string :=
  match s with
  | EmptyString => ([], EmptyString)
  | String c s' =>
      if is_digit c then
        let (ds, rest) := span_digits s' in (digit_value c :: ds, rest)
      else ([], s)
  end.

Definition digits_value (ds : list Z) : Z :=
  fold_left (fun acc d => (10 * acc + d)%Z) ds 0%Z.

(** An optional sign, as [parseInt] reads it: the factor and the rest. *)
Definition read_sign (s : string) : Z * string :=
  match s with
  | String c r =>
      if Ascii.eqb c "-" then ((-1)%Z, r)
      else if Ascii.eqb c "+" then (1%Z, r)
      else (1%Z, s)
  | EmptyString => (1%Z, s)
  end.

(** [parseInt(s, 10)]: leading white space is skipped, a sign is read, then
    the longest run of digits; [NaN] when there is no digit.  The result
    is the integer that the digits denote when it is a safe integer; beyond
    that JavaScript gives a binary64 number near it, which the model does
    not follow. *)
Definition parseInt (str : string) : number :=
  let s := skip_ws str in
  let (sign, s) := read_sign s in
  match fst (span_digits s) with
  | [] => NaN
  | ds => safe (sign * digits_value ds)%Z
  end.

(** [-?]: an optional minus sign; the factor and the rest. *)
Definition read_minus (s : string) : Z * string :=
  match s with
  | String c r => if Ascii.eqb c "-" then ((-1)%Z, r) else (1%Z, s)
  | EmptyString => (1%Z, s)
  end.

(** [(\.\d+)?]: an optional point followed by digits; the digits and the
    rest. *)
Definition read_fraction (s : string) : list Z * string :=
  match s with
  | String c r =>
      if Ascii.eqb c "." then
        let (fs, r') := span_digits r in
        match fs with
        | [] => ([], s)
        | _ => (fs, r')
        end
      else ([], s)
  | EmptyString => ([], s)
  end.

Definition is_empty (s : string) : bool :=
  match s with
  | EmptyString => true
  | _ => false
  end.

(** [Blockly.isNumber] of the Blockly library (not under src/), which the
    source calls on line 247 to tell a literal numeral from another
    expression: the test of the regular expression
    [/^\s*-?\d+(\.\d+)?\s*$/]. *)
Definition isNumber (str : string) : bool :=
  let s := skip_ws str in
  let (_, s) := read_minus s in
  let (ds, s) := span_digits s in
  match ds with
  | [] => false
  | _ =>
      let (_, s) := read_fraction s in
      is_empty (skip_ws s)
  end.

(** The number that a numeral accepted by [isNumber] denotes, as a
    mantissa [m] and a count [k] of decimals: the numeral stands for
    [m / 10^k]. *)
Definition decimal_value (str : string) : option (Z * nat) :=
  let s := skip_ws str in
  let (sign, s) := read_minus s in
  let (ds, s) := span_digits s in
  match ds with
  | [] => None
  | _ =>
      let (fs, s) := read_fraction s in
      if is_empty (skip_ws s) then
        Some (sign * (digits_value ds * 10 ^ Z.of_nat (length fs)
                      + digits_value fs),
              length fs)%Z
      else None
  end.

(** ** Blocks *)

Inductive inputType : Type :=
  | INPUT_VALUE
  | NEXT_STATEMENT
  | DUMMY_INPUT.

Definition inputType_eqb (a b : inputType) : bool :=
  match a, b with
  | INPUT_VALUE, INPUT_VALUE
  | NEXT_STATEMENT, NEXT_STATEMENT
  | DUMMY_INPUT, DUMMY_INPUT => true
  | _, _ => false
  end.

(** What the generator reads of a workspace: the [oneBasedIndex] option and
    the names of the variables that [getAllVariables] lists. *)
Record Workspace : Type := mkWorkspace {
  oneBasedIndex : bool;
  getAllVariables : list string
}.

(** An input of a block: [targetBlock] is [connection.targetBlock()]. *)
Record Input (B : Type) : Type := mkInput {
  input_name : string;
  input_type : inputType;
  targetBlock : option B
}.

Arguments mkInput {B} _ _ _.
Arguments input_name {B} _.
Arguments input_type {B} _.
Arguments targetBlock {B} _.

(** What the generator reads of a block.  [outputConnection] is [None] for
    a block without output, [Some b] for one whose output connection has a
    target ([b = true]) or not; [nextBlock] is
    [block.nextConnection && block.nextConnection.targetBlock()]. *)
#[warnings="-register-all"]
Inductive Block : Type := mkBlock {
  block_type : string;
  workspace : Workspace;
  getCommentText : string;
  getProcedureDef : bool;
  outputConnection : option bool;
  inputList : list (Input Block);
  nextBlock : option Block
}.

(** [block.getInputTargetBlock(name)] *)
Definition getInputTargetBlock (block : Block) (name : string)
  : option Block :=
  match find (fun i => String.eqb (input_name i) name) (inputList block) with
  | Some i => targetBlock i
  | None => None
  end.

(** The statement chain that starts at a block. *)
Fixpoint chain (b : Block) : list Block :=
  b :: match nextBlock b with
       | Some n => chain n
       | None => []
       end.

(** ** Order of operations (cpp.js, lines 71-88) *)

Definition ORDER_ATOMIC : Z := 0.
Definition ORDER_UNARY_POSTFIX : Z := 1.
Definition ORDER_UNARY_PREFIX : Z := 2.
Definition ORDER_MULTIPLICATIVE : Z := 3.
Definition ORDER_ADDITIVE : Z := 4.
Definition ORDER_SHIFT : Z := 5.
Definition ORDER_BITWISE_AND : Z := 6.
Definition ORDER_BITWISE_XOR : Z := 7.
Definition ORDER_BITWISE_OR : Z := 8.
Definition ORDER_RELATIONAL : Z := 9.
Definition ORDER_EQUALITY : Z := 10.
Definition ORDER_LOGICAL_AND : Z := 11.
Definition ORDER_LOGICAL_OR : Z := 12.
Definition ORDER_IF_NULL : Z := 13.
Definition ORDER_CONDITIONAL : Z := 14.
Definition ORDER_CASCADE : Z := 15.
Definition ORDER_ASSIGNMENT : Z := 16.
Definition ORDER_NONE : Z := 99.

(** ** Escaping of string literals *)

(** [Blockly.Cpp.quote_] (cpp.js, lines 167-174).  The four replacement
    texts are the values of the JavaScript literals ['\\\\'], ['\\\n'],
    ['\\$'] and ['\\\'']: two backslashes; a backslash and a line feed; a
    backslash and a dollar sign; a backslash and an apostrophe. *)
Definition quote_ (string0 : string) : string :=
  let string1 := replaceAll "\" "\\" string0 in
  let string2 := replaceAll LF (String "\" nl) string1 in
  let string3 := replaceAll "$" "\$" string2 in
  let string4 := replaceAll "'" "\'" string3 in
  "'" ++ string4 ++ "'".

(** What the four passes of [quote_] do to one character of the input. *)
Definition escape_char (c : ascii) : string :=
  if Ascii.eqb c "\" then "\\"
  else if Ascii.eqb c LF then String "\" nl
  else if Ascii.eqb c "$" then "\$"
  else if Ascii.eqb c "'" then "\'"
  else String c EmptyString.

Fixpoint escape (s : string) : string :=
  match s with
  | EmptyString => EmptyString
  | String c s' => escape_char c ++ escape s'
  end.

(** [Blockly.Cpp.scrubNakedValue] (cpp.js, lines 157-159). *)
Definition scrubNakedValue (line : string) : string :=
  line ++ ";" ++ nl.

(** ** Statements, comments and the statement chain *)

(** [Blockly.Generator.prototype.COMMENT_WRAP], which the module inherits. *)
Definition COMMENT_WRAP : Z := 60.

Section Scrub.

(** The helpers of the Blockly library that [scrub_] calls:
    [Blockly.utils.wrap], [Blockly.Cpp.prefixLines] and
    [Blockly.Cpp.allNestedComments]; and [Blockly.Cpp.blockToCode], to which
    it hands the next block of the chain. *)
Variable wrap : string -> Z -> string.
Variable prefixLines : string -> string -> string.
Variable allNestedComments : Block -> string.
Variable blockToCode : option Block -> string.

(** The loop of lines 202-212: the comments of the value arguments, in the
    order of [inputList], added to [commentCode]. *)
Definition argumentComments (commentCode : string)
    (inputs : list (Input Block)) : string :=
  fold_left
    (fun commentCode input =>
       if inputType_eqb (input_type input) INPUT_VALUE then
         match targetBlock input with
         | Some childBlock =>
             let comment := allNestedComments childBlock in
             if String.eqb comment "" then commentCode
             else commentCode ++ prefixLines comment "// "
         | None => commentCode
         end
       else commentCode)
    inputs commentCode.

(** The value of [commentCode] on line 214 (cpp.js, lines 186-213). *)
Definition commentCode (block : Block) : string :=
  match outputConnection block with
  | Some true => ""
  | _ =>
      let comment := getCommentText block in
      let comment := wrap comment (COMMENT_WRAP - 3) in
      let commentCode :=
        if String.eqb comment "" then ""
        else if getProcedureDef block then prefixLines (comment ++ nl) "/// "
        else prefixLines (comment ++ nl) "// " in
      argumentComments commentCode (inputList block)
  end.

(** [Blockly.Cpp.scrub_] (cpp.js, lines 185-217). *)
Definition scrub_ (block : Block) (code : string) : string :=
  let commentCode := commentCode block in
  let nextBlock := nextBlock block in
  let nextCode := blockToCode nextBlock in
  commentCode ++ code ++ nextCode.

End Scrub.

Module Generator.

(** Modelled from the spec: [Blockly.Generator.prototype.blockToCode] on
    the blocks of a statement chain, which is not under src/.  The code of
    a block is computed by the generation rule of its type ([rule], given
    from outside), then handed to [scrub_], which adds the comments and
    calls [blockToCode] on the next block of the chain.  [chainToCode] is
    [blockToCode] on a block that exists. *)
Fixpoint chainToCode (wrap : string -> Z -> string)
    (prefixLines : string -> string -> string)
    (allNestedComments : Block -> string)
    (rule : Block -> string) (block : Block) {struct block} : string :=
  scrub_ wrap prefixLines allNestedComments
    (fun next =>
       match next with
       | Some b => chainToCode wrap prefixLines allNestedComments rule b
       | None => ""
       end)
    block (rule block).

(** Modelled from the spec: [blockToCode] on what a connection gives, a
    block or none; the end of a chain gives the empty text. *)
Definition blockToCode (wrap : string -> Z -> string)
    (prefixLines : string -> string -> string)
    (allNestedComments : Block -> string)
    (rule : Block -> string) (block : option Block) : string :=
  match block with
  | Some b => chainToCode wrap prefixLines allNestedComments rule b
  | None => ""
  end.

(** Modelled from the spec: [Blockly.Generator.prototype.valueToCode],
    which is not under src/.  It gives the text of the expression plugged
    into the value socket [name]: the empty text when the socket is not
    connected, else the code that the rule of the connected block returns
    with its order ([rule]), in parentheses when that order is looser than
    [outerOrder] (numerically larger), and on ties except between two
    atomic or two unordered expressions. *)
Definition valueToCode (rule : Block -> string * Z)
    (block : Block) (name : string) (outerOrder : Z) : string :=
  match getInputTargetBlock block name with
  | None => ""
  | Some target =>
      let (code, innerOrder) := rule target in
      if String.eqb code "" then ""
      else if (outerOrder <=? innerOrder)%Z
              && negb ((outerOrder =? innerOrder)%Z
                       && ((outerOrder =? 0)%Z || (outerOrder =? 99)%Z))
      then "(" ++ code ++ ")"
      else code
  end.

End Generator.

(** ** Index expressions *)

(** What [getAdjusted] returns: a number or a text. *)
Inductive value : Type :=
  | VNumber (n : number)
  | VString (s : string).

(** [a || b] on texts: the empty text is the only falsy one. *)
Definition or_else (a b : string) : string :=
  if String.eqb a "" then b else a.

Section Adjust.

(** The text of a number beyond the safe integers (see
    [Number_toString]). *)
Variable bigNumberToString : Z -> string.

(** [Blockly.Cpp.valueToCode], inherited from [Blockly.Generator]. *)
Variable valueToCode : Block -> string -> Z -> string.

(** Line 230 and lines 232-234: the offset after the one-based-index
    adjustment, as an integer.  An omitted [opt_delta] is [None]; a given
    one is an integer that the caller passes as a number.  When the
    integer [delta] is safe, it is the number that JavaScript holds in
    [delta]; when it is not, JavaScript holds a binary64 number near it
    (the decrement of line 233 rounds), which has its sign and is not zero
    either, and which [number_add] and [Number_toString] do not follow. *)
Definition adjustedDelta (block : Block) (opt_delta : option Z) : Z :=
  let delta := match opt_delta with Some d => d | None => 0%Z end in
  if oneBasedIndex (workspace block) then (delta - 1)%Z else delta.

(** Line 231: [opt_order || Blockly.Cpp.ORDER_NONE]; an omitted order and
    the order 0 both give [ORDER_NONE]. *)
Definition requiredOrder (opt_order : option Z) : Z :=
  match opt_order with
  | Some o => if (o =? 0)%Z then ORDER_NONE else o
  | None => ORDER_NONE
  end.

(** Line 235. *)
Definition defaultAtIndex (block : Block) : string :=
  if oneBasedIndex (workspace block) then "1" else "0".

(** Lines 236-245: the operand [at] as resolved from the socket. *)
Definition resolvedAt (block : Block) (atId : string)
    (opt_delta : option Z) (opt_negate : bool) (opt_order : option Z)
  : string :=
  let delta := adjustedDelta block opt_delta in
  let order := requiredOrder opt_order in
  if negb (delta =? 0)%Z then
    or_else (valueToCode block atId ORDER_ADDITIVE) (defaultAtIndex block)
  else if opt_negate then
    or_else (valueToCode block atId ORDER_UNARY_PREFIX) (defaultAtIndex block)
  else
    or_else (valueToCode block atId order) (defaultAtIndex block).

(** [Blockly.Cpp.getAdjusted] (cpp.js, lines 228-277).  [innerOrder] is
    [None] while the source leaves it undefined; the orders are integers,
    on which [Math.floor] changes nothing. *)
Definition getAdjusted (block : Block) (atId : string)
    (opt_delta : option Z) (opt_negate : bool) (opt_order : option Z)
  : value :=
  let delta := adjustedDelta block opt_delta in
  let order := requiredOrder opt_order in
  let at_ := resolvedAt block atId opt_delta opt_negate opt_order in
  if isNumber at_ then
    let at_ := number_add (parseInt at_) delta in
    let at_ := if opt_negate then number_neg at_ else at_ in
    VNumber at_
  else
    let '(at_, innerOrder) :=
      if (0 <? delta)%Z then
        (at_ ++ " + " ++ Number_toString bigNumberToString delta,
         Some ORDER_ADDITIVE)
      else if (delta <? 0)%Z then
        (at_ ++ " - " ++ Number_toString bigNumberToString (- delta),
         Some ORDER_ADDITIVE)
      else (at_, None) in
    let '(at_, innerOrder) :=
      if opt_negate then
        (if negb (delta =? 0)%Z then "-(" ++ at_ ++ ")" else "-" ++ at_,
         Some ORDER_UNARY_PREFIX)
      else (at_, innerOrder) in
    let at_ :=
      match innerOrder with
      | Some innerOrder =>
          if negb (innerOrder =? 0)%Z && (innerOrder <=? order)%Z
          then "(" ++ at_ ++ ")"
          else at_
      | None => at_
      end in
    VString at_.

End Adjust.

(** ** The name registry *)

(** The Name Registry of the specification is the class [Blockly.Names] of
    the Blockly library, which is not under src/; the source uses its
    constructor, [reset] and [getName] (lines 102-113 and 146).  The module
    below models it: a mapping from logical identifiers to collision-free
    emitted identifiers, seeded with a set of reserved words, that [reset]
    empties.  The three dictionaries are kept as lists; texts are in the
    ASCII range, so that [encodeURI] escapes each character outside its
    unescaped set as [%XX].  The registry files the name given to an
    identifier under a key made of the identifier, as
    [String.prototype.toLowerCase] folds it, and of its type; the folding
    is a section variable. *)
Module Names.

(** [Blockly.Variables.NAME_TYPE] *)
Definition NAME_TYPE : string := "VARIABLE".

(** Modelled from the spec: the fields of a registry, the reserved words
    and the two tables of the names given so far. *)
Record t : Type := mk {
  variablePrefix_ : string;
  reservedDict_ : list string;
  db_ : list (string * string);
  dbReverse_ : list string
}.

(** Modelled from the spec: [Blockly.Names.prototype.reset].  Both tables
    of names are emptied, the reserved words stay. *)
Definition reset (n : t) : t :=
  {| variablePrefix_ := variablePrefix_ n;
     reservedDict_ := reservedDict_ n;
     db_ := [];
     dbReverse_ := [] |}.

(** Modelled from the spec: [new Blockly.Names(reservedWords)], a registry
    seeded with the words of a comma-separated list. *)
Definition new (reservedWords : string) : t :=
  reset {| variablePrefix_ := "";
           reservedDict_ :=
             if String.eqb reservedWords "" then []
             else split "," reservedWords;
           db_ := [];
           dbReverse_ := [] |}.

Definition hex_digit (n : nat) : ascii :=
  if (n <? 10)%nat then ascii_of_nat (48 + n) else ascii_of_nat (55 + n).

(** The characters that [encodeURI] leaves as they are. *)
Definition uri_unescaped (c : ascii) : bool :=
  is_word c || mem (String c "")
    [";"; "/"; "?"; ":"; "@"; "&"; "="; "+"; "$"; ","; "-"; "."; "!"; "~";
     "*"; "'"; "("; ")"; "#"].

Fixpoint encodeURI (s : string) : string :=
  match s with
  | EmptyString => EmptyString
  | String c s' =>
      if uri_unescaped c then String c (encodeURI s')
      else
        let n := nat_of_ascii c in
        String "%" (String (hex_digit (n / 16))
                      (String (hex_digit (n mod 16)) (encodeURI s')))
  end.

(** [s.replace(/[^\w]/g, '_')] *)
Fixpoint replace_non_word (s : string) : string :=
  match s with
  | EmptyString => EmptyString
  | String c s' =>
      String (if is_word c then c else "_"%char) (replace_non_word s')
  end.

(** [Blockly.Names.prototype.safeName_] *)
Definition safeName_ (name : string) : string :=
  if String.eqb name "" then "unnamed"
  else
    let name := replace_non_word (encodeURI (replaceAll " " "_" name)) in
    match name with
    | String c _ => if is_digit c then "my_" ++ name else name
    | EmptyString => name
    end.

(** The name is in use or reserved. *)
Definition taken (n : t) (candidate : string) : bool :=
  mem candidate (dbReverse_ n) || mem candidate (reservedDict_ n).

(** The counter [i] of [getDistinctName]: 0 stands for its first value, the
    empty text, which is followed by 2, 3, 4 and so on. *)
Definition suffix (i : nat) : string :=
  match i with
  | O => ""
  | _ => NilEmpty.string_of_uint (Nat.to_uint i)
  end.

Definition next_suffix (i : nat) : nat :=
  match i with
  | O => 2
  | _ => S i
  end.

(** The loop of [getDistinctName], which ends at the first counter whose
    candidate is free.  As many rounds as there are names in use or
    reserved are enough for that ([search_free]). *)
Fixpoint search (fuel : nat) (n : t) (safeName : string) (i : nat) : nat :=
  if taken n (safeName ++ suffix i) then
    match fuel with
    | O => i
    | S fuel' => search fuel' n safeName (next_suffix i)
    end
  else i.

Definition prefix_for (n : t) (type : string) : string :=
  if String.eqb type NAME_TYPE then variablePrefix_ n else "".

(** Modelled from the spec: [Blockly.Names.prototype.getDistinctName],
    which gives a name that is neither reserved nor in use and records
    it. *)
Definition getDistinctName (n : t) (name type : string) : string * t :=
  let safeName := safeName_ name in
  let i :=
    search (length (dbReverse_ n) + length (reservedDict_ n)) n safeName 0 in
  let safeName := safeName ++ suffix i in
  (prefix_for n type ++ safeName,
   {| variablePrefix_ := variablePrefix_ n;
      reservedDict_ := reservedDict_ n;
      db_ := db_ n;
      dbReverse_ := safeName :: dbReverse_ n |}).

(** [s.substr(n)] *)
Fixpoint substr (n : nat) (s : string) : string :=
  match n, s with
  | S n', String _ s' => substr n' s'
  | _, _ => s
  end.

Section Keys.

(** [String.prototype.toLowerCase], by which the registry folds an
    identifier before it files it. *)
Variable toLowerCase : string -> string.

(** Modelled from the spec: [Blockly.Names.prototype.getName], which gives
    the name already chosen for an identifier, or else chooses a distinct
    one and remembers it. *)
Definition getName (n : t) (name type : string) : string * t :=
  let normalized := toLowerCase name ++ "_" ++ type in
  let prefix := prefix_for n type in
  match lookup normalized (db_ n) with
  | Some known => (prefix ++ known, n)
  | None =>
      let (safeName, n') := getDistinctName n name type in
      (safeName,
       {| variablePrefix_ := variablePrefix_ n';
          reservedDict_ := reservedDict_ n';
          db_ := assign normalized
                   (substr (String.length prefix) safeName) (db_ n');
          dbReverse_ := dbReverse_ n' |})
  end.

End Keys.

End Names.

(** ** The state of the generator and its passes *)

(** [Blockly.Generator.prototype.addReservedWords]: the words are appended
    to the list with a closing comma. *)
Definition addReservedWords (reserved words : string) : string :=
  reserved ++ words ++ ",".

(** [Blockly.Cpp.RESERVED_WORDS_] after the call on lines 48-65. *)
Definition RESERVED_WORDS_ : string :=
  addReservedWords ""
    ("assert,break,case,catch,class,const,continue,default,do,else,enum," ++
     "extends,false,final,finally,for,if,in,is,new,null,rethrow,return,super," ++
     "switch,this,throw,true,try,var,void,while,with," ++
     "print,identityHashCode,identical,BidirectionalIterator,Comparable," ++
     "double,Function,int,Invocation,Iterable,Iterator,List,Map,Match,num," ++
     "Pattern,RegExp,Set,StackTrace,String,StringSink,Type,bool,DateTime," ++
     "Deprecated,Duration,Expando,Null,Object,RuneIterator,Runes,Stopwatch," ++
     "StringBuffer,Symbol,Uri,Comparator,AbstractClassInstantiationError," ++
     "ArgumentError,AssertionError,CastError,ConcurrentModificationError," ++
     "CyclicInitializationError,Error,Exception,FallThroughError," ++
     "FormatException,IntegerDivisionByZeroException,NoSuchMethodError," ++
     "NullThrownError,OutOfMemoryError,RangeError,StackOverflowError," ++
     "StateError,TypeError,UnimplementedError,UnsupportedError").

(** The fields of [Blockly.Cpp] that a pass writes; [None] is a field that
    is undefined (never set, or deleted by [finish]). *)
Record State : Type := mkState {
  definitions_ : option (list (string * string));
  functionNames_ : option (list (string * string));
  variableDB_ : option Names.t
}.

(** The state of the module once loaded, before any pass. *)
Definition loaded : State :=
  {| definitions_ := None; functionNames_ := None; variableDB_ := None |}.

(** Lines 101-106: the registry is created on the first call and reset on
    the later ones. *)
Definition init_variableDB (st : State) : Names.t :=
  match variableDB_ st with
  | None => Names.new RESERVED_WORDS_
  | Some db => Names.reset db
  end.

Section Passes.

(** [String.prototype.toLowerCase], which the registry calls. *)
Variable toLowerCase : string -> string.

(** The loop of lines 111-114: [defvars] and the registry after it. *)
Fixpoint getNames (db : Names.t) (variables : list string)
  : list string * Names.t :=
  match variables with
  | [] => ([], db)
  | name :: variables' =>
      let (defvar, db1) :=
        Names.getName toLowerCase db name Names.NAME_TYPE in
      let (defvars, db2) := getNames db1 variables' in
      (defvar :: defvars, db2)
  end.

(** [Blockly.Cpp.init] (cpp.js, lines 94-118). *)
Definition init (workspace : Workspace) (st : State) : State :=
  let definitions := [] in
  let functionNames := [] in
  let db := init_variableDB st in
  let variables := getAllVariables workspace in
  match variables with
  | [] =>
      {| definitions_ := Some definitions;
         functionNames_ := Some functionNames;
         variableDB_ := Some db |}
  | _ =>
      let (defvars, db') := getNames db variables in
      {| definitions_ :=
           Some (assign "variables" ("var " ++ join ", " defvars ++ ";")
                   definitions);
         functionNames_ := Some functionNames;
         variableDB_ := Some db' |}
  end.

(** [def.match(/^import\s/)] *)
Definition is_import (def : string) : bool :=
  match strip_prefix "import" def with
  | Some (String c _) => is_space c
  | _ => false
  end.

(** The loop of lines 135-142, over the entries of [definitions_] in
    enumeration order: the lists [imports] and [definitions]. *)
Definition sort_definitions (entries : list (string * string))
  : list string * list string :=
  fold_left
    (fun '(imports, definitions) '(name, def) =>
       if is_import def then ((imports ++ [def])%list, definitions)
       else (imports, (definitions ++ [def])%list))
    entries ([], []).

(** [s.replace(/\n\n+/g, '\n\n')].  From left to right: a line feed that
    is followed by a line feed starts a match, which is replaced by two
    line feeds; [in_match] says that the scan is inside a match, whose [\n+]
    takes every further line feed. *)
Fixpoint collapse_from (in_match : bool) (s : string) : string :=
  match s with
  | EmptyString => EmptyString
  | String c s' =>
      if is_nl c then
        if in_match then collapse_from true s'
        else if starts_with_nl s' then nl ++ nl ++ collapse_from true s'
        else String c (collapse_from false s')
      else String c (collapse_from false s')
  end.

Definition collapse (s : string) : string := collapse_from false s.

(** [s.replace(/\n*$/, '\n\n\n')]: the first match starts where only line
    feeds remain up to the end of the text, and takes them all. *)
Fixpoint replace_trailing (s : string) : string :=
  match s with
  | EmptyString => nl ++ nl ++ nl
  | String c s' =>
      if all_nl s then nl ++ nl ++ nl else String c (replace_trailing s')
  end.

(** Line 147. *)
Definition allDefs (imports definitions : list string) : string :=
  join nl imports ++ nl ++ nl ++ join (nl ++ nl) definitions.

(** [Blockly.Cpp.finish] (cpp.js, lines 125-149).  The result is [None]
    when [variableDB_] is undefined, where line 146 throws a TypeError,
    the two tables being deleted already. *)
Definition finish (code : string) (st : State) : option (string * State) :=
  let entries :=
    match definitions_ st with
    | Some entries => entries
    | None => []
    end in
  let (imports, definitions) := sort_definitions entries in
  match variableDB_ st with
  | None => None
  | Some db =>
      let allDefs := allDefs imports definitions in
      Some (replace_trailing (collapse allDefs) ++ code,
            {| definitions_ := None;
               functionNames_ := None;
               variableDB_ := Some (Names.reset db) |})
  end.

(** What happens to the state between the load of the module and any later
    moment: passes start with [init] and end with [finish]; in between the
    generation rules of the blocks ask the registry for names and record
    definitions and function names. *)
Inductive step : State -> State -> Prop :=
  | step_init (workspace : Workspace) (st : State) :
      step st (init workspace st)
  | step_finish (code out : string) (st st' : State) :
      finish code st = Some (out, st') ->
      step st st'
  | step_getName (name type : string) (st : State) (db : Names.t) :
      variableDB_ st = Some db ->
      step st {| definitions_ := definitions_ st;
                 functionNames_ := functionNames_ st;
                 variableDB_ :=
                   Some (snd (Names.getName toLowerCase db name type)) |}
  | step_getDistinctName (name type : string) (st : State) (db : Names.t) :
      variableDB_ st = Some db ->
      step st {| definitions_ := definitions_ st;
                 functionNames_ := functionNames_ st;
                 variableDB_ :=
                   Some (snd (Names.getDistinctName db name type)) |}
  | step_define (key def : string) (st : State)
      (entries : list (string * string)) :
      definitions_ st = Some entries ->
      step st {| definitions_ := Some (assign key def entries);
                 functionNames_ := functionNames_ st;
                 variableDB_ := variableDB_ st |}
  | step_functionName (key name : string) (st : State)
      (entries : list (string * string)) :
      functionNames_ st = Some entries ->
      step st {| definitions_ := definitions_ st;
                 functionNames_ := Some (assign key name entries);
                 variableDB_ := variableDB_ st |}.

(** The states that the module can be in. *)
Definition reachable (st : State) : Prop :=
  clos_refl_trans_n1 State step loaded st.

(** The registry of the state, if any, leaves the seed of the module when
    it is reset: the names that earlier requests put in it apart, it is the
    registry that [init] creates at first. *)
Definition seeded (st : State) : Prop :=
  forall db : Names.t,
    variableDB_ st = Some db -> Names.reset db = Names.new RESERVED_WORDS_.

(** What a generation rule does when it records a definition, and when it
    asks the registry for a distinct name; nothing changes when the table
    or the registry is undefined. *)
Definition define (key def : string) (st : State) : State :=
  match definitions_ st with
  | Some entries =>
      {| definitions_ := Some (assign key def entries);
         functionNames_ := functionNames_ st;
         variableDB_ := variableDB_ st |}
  | None => st
  end.

Definition distinctName (name type : string) (st : State) : State :=
  match variableDB_ st with
  | Some db =>
      {| definitions_ := definitions_ st;
         functionNames_ := functionNames_ st;
         variableDB_ := Some (snd (Names.getDistinctName db name type)) |}
  | None => st
  end.

(** The names that the registry gives to a list of requests, each a name
    with its type, and the registry after them. *)
Fixpoint resolve (db : Names.t) (requests : list (string * string))
  : list string * Names.t :=
  match requests with
  | [] => ([], db)
  | (name, type) :: requests' =>
      let (emitted, db1) := Names.getName toLowerCase db name type in
      let (others, db2) := resolve db1 requests' in
      (emitted :: others, db2)
  end.

(** A whole pass: [init], the requests of the generation rules to the
    registry, then [finish] on the generated body.  It gives the names that
    were emitted, the text and the state that it leaves. *)
Definition run_pass (ws : Workspace) (requests : list (string * string))
    (code : string) (st : State) : option (list string * string * State) :=
  let st1 := init ws st in
  match variableDB_ st1 with
  | Some db =>
      let (emitted, db') := resolve db requests in
      match finish code {| definitions_ := definitions_ st1;
                           functionNames_ := functionNames_ st1;
                           variableDB_ := Some db' |} with
      | Some (out, st2) => Some (emitted, out, st2)
      | None => None
      end
  | None => None
  end.

(** Registry-resolved names: [resolved db variables names db'] says that
    [names] are the names that the registry [db] gives to [variables] when
    it is asked for them with [getName], one variable after the other, and
    that [db'] is the registry after these requests. *)
Inductive resolved
  : Names.t -> list string -> list string -> Names.t -> Prop :=
  | resolved_nil (db : Names.t) : resolved db [] [] db
  | resolved_cons (db db1 db2 : Names.t) (name defvar : string)
      (variables defvars : list string) :
      Names.getName toLowerCase db name Names.NAME_TYPE = (defvar, db1) ->
      resolved db1 variables defvars db2 ->
      resolved db (name :: variables) (defvar :: defvars) db2.

End Passes.

(** ** Shapes of results *)

(** [at + <delta>] or [at - <|delta|>], by the sign of [delta]
    (lines 255-261). *)
Definition additive_text (bigNumberToString : Z -> string) (at_ : string)
    (delta : Z) : string :=
  if (0 <? delta)%Z then at_ ++ " + " ++ Number_toString bigNumberToString delta
  else at_ ++ " - " ++ Number_toString bigNumberToString (- delta).

Definition parenthesize (b : bool) (s : string) : string :=
  if b then "(" ++ s ++ ")" else s.

Definition negate_if (b : bool) (z : Z) : Z :=
  if b then (- z)%Z else z.

(** The entries of the definition table that [finish] takes as imports and
    the other ones, each in enumeration order. *)
Definition import_entries (entries : list (string * string)) : list string :=
  filter is_import (map snd entries).

Definition other_entries (entries : list (string * string)) : list string :=
  filter (fun def => negb (is_import def)) (map snd entries).

Definition table (st : State) : list (string * string) :=
  match definitions_ st with
  | Some entries => entries
  | None => []
  end.

(** [s] without the line feeds at its end. *)
Fixpoint strip_trailing (s : string) : string :=
  match s with
  | EmptyString => EmptyString
  | String c s' => if all_nl s then EmptyString else String c (strip_trailing s')
  end.

(** The texts of a list, one after the other. *)
Definition concat_all (l : list string) : string :=
  fold_right append "" l.

(** The text that [finish] puts in front of the body. *)
Definition header (st : State) : string :=
  replace_trailing
    (collapse (allDefs (import_entries (table st)) (other_entries (table st)))).

(** ** The properties as the specification words them

    Six sentences of the specification do not hold of the code as they are
    worded.  They are stated here as they are worded, to be compared with
    the code on a concrete input in Part II. *)

(** "For all non-literal operands and nonzero delta, the emitted expression
    matches the pattern <operand> + <delta> or <operand> - <|delta|>,
    parenthesized iff the caller-required order is numerically less than or
    equal to the additive order": the sentence on the calls without
    negation, whose text is the sum itself. *)
Definition adjusted_text_as_specified : Prop :=
  forall (bigNumberToString : Z -> string)
         (valueToCode : Block -> string -> Z -> string) (block : Block)
         (atId : string) (opt_delta : option Z) (opt_order : option Z),
    let delta := adjustedDelta block opt_delta in
    let at_ := resolvedAt valueToCode block atId opt_delta false opt_order in
    isNumber at_ = false ->
    delta <> 0%Z ->
    getAdjusted bigNumberToString valueToCode block atId opt_delta false
      opt_order =
    VString (parenthesize (requiredOrder opt_order <=? ORDER_ADDITIVE)%Z
               (additive_text bigNumberToString at_ delta)).

(** "When the resolved operand is a literal numeral and delta is nonzero,
    the result is a constant-folded numeral equal to operand + delta,
    negated when negate is requested": the result [z] and the operand
    [m / 10^k] satisfy [z = +-(m / 10^k + delta)]. *)
Definition folded_as_specified : Prop :=
  forall (bigNumberToString : Z -> string)
         (valueToCode : Block -> string -> Z -> string) (block : Block)
         (atId : string) (opt_delta : option Z) (opt_negate : bool)
         (opt_order : option Z),
    let delta := adjustedDelta block opt_delta in
    let at_ := resolvedAt valueToCode block atId opt_delta opt_negate
                 opt_order in
    isNumber at_ = true ->
    delta <> 0%Z ->
    exists (m : Z) (k : nat) (z : Z),
      decimal_value at_ = Some (m, k) /\
      getAdjusted bigNumberToString valueToCode block atId opt_delta
        opt_negate opt_order =
      VNumber (Num z) /\
      (z * 10 ^ Z.of_nat k =
       negate_if opt_negate (m + delta * 10 ^ Z.of_nat k))%Z.

(** "generate over a 3-block statement chain emits A's code, then A's
    trailing comments, then B's code in that exact order." *)
Definition chain_order_as_specified : Prop :=
  forall (wrap : string -> Z -> string)
         (prefixLines : string -> string -> string)
         (allNestedComments : Block -> string) (rule : Block -> string)
         (A B C : Block),
    nextBlock A = Some B ->
    nextBlock B = Some C ->
    in_order
      [rule A; commentCode wrap prefixLines allNestedComments A; rule B]
      (Generator.blockToCode wrap prefixLines allNestedComments rule
         (Some A)).

(** "quote escapes to a single-quoted string containing \n as a literal
    backslash-n sequence, \$ for the dollar sign, and \' for the
    apostrophe." *)
Definition quote_as_specified : Prop :=
  let quoted := quote_ ("it's" ++ nl ++ "$x") in
  contains "\n" quoted /\ contains "\$" quoted /\ contains "\'" quoted.

(** "finish output never contains three or more consecutive blank lines,
    and imports always appear before other definitions": the two halves,
    then the sentence. *)
Definition finish_blank_lines_as_specified : Prop :=
  forall (code : string) (st : State) (db : Names.t),
    variableDB_ st = Some db ->
    exists (out : string) (st' : State),
      finish code st = Some (out, st') /\
      ~ three_blank_lines out.

Definition finish_imports_as_specified : Prop :=
  forall (code : string) (st : State) (db : Names.t),
    variableDB_ st = Some db ->
    exists (out : string) (st' : State),
      finish code st = Some (out, st') /\
      (forall i d : string,
          In i (import_entries (table st)) ->
          In d (other_entries (table st)) ->
          in_order [i; d] out).

Definition finish_layout_as_specified : Prop :=
  finish_blank_lines_as_specified /\ finish_imports_as_specified.

(** "No emitter operation raises an exception": [finish], the operation of
    the model that can fail, returns a text in whatever state it is
    called. *)
Definition no_exception_as_specified : Prop :=
  forall (code : string) (st : State),
    exists (out : string) (st' : State), finish code st = Some (out, st').

(** ** Sample data *)

Module Sample.

(** [toLowerCase] on the texts of the sample data, which are made of ASCII
    characters: the letters A to Z are folded. *)
Definition lower_char (c : ascii) : ascii :=
  let n := nat_of_ascii c in
  if ((65 <=? n) && (n <=? 90))%nat then ascii_of_nat (n + 32) else c.

Fixpoint toLowerCase (s : string) : string :=
  match s with
  | EmptyString => EmptyString
  | String c s' => String (lower_char c) (toLowerCase s')
  end.

(** The sample data hold no number beyond the safe integers, so that the
    text of such a number is never asked for; it is set to the digits of
    the integer. *)
Definition bigNumberToString (z : Z) : string :=
  NilZero.string_of_int (Z.to_int z).

Definition zeroBased : Workspace :=
  {| oneBasedIndex := false; getAllVariables := [] |}.

Definition oneBased : Workspace :=
  {| oneBasedIndex := true; getAllVariables := ["x"; "int"; "X"] |}.

(** A value block plugged into a socket, of the given type. *)
Definition plugged (type : string) : Block :=
  {| block_type := type; workspace := zeroBased; getCommentText := "";
     getProcedureDef := false; outputConnection := Some true;
     inputList := []; nextBlock := None |}.

(** A block with one value socket, [AT]. *)
Definition indexed (ws : Workspace) (at_ : option Block) : Block :=
  {| block_type := "lists_getIndex"; workspace := ws; getCommentText := "";
     getProcedureDef := false; outputConnection := None;
     inputList := [mkInput "AT" INPUT_VALUE at_]; nextBlock := None |}.

(** Generation rules of two value blocks: a variable [x] and the number
    [1.5], both atomic. *)
Definition value_rule (block : Block) : string * Z :=
  if String.eqb (block_type block) "variables_get" then ("x", ORDER_ATOMIC)
  else if String.eqb (block_type block) "math_number" then
    ("1.5", ORDER_ATOMIC)
  else ("", ORDER_NONE).

Definition valueToCode : Block -> string -> Z -> string :=
  Generator.valueToCode value_rule.

(** A statement block, with its comment and the block that follows it. *)
Definition statement (type comment : string) (next : option Block) : Block :=
  {| block_type := type; workspace := zeroBased; getCommentText := comment;
     getProcedureDef := false; outputConnection := None;
     inputList := []; nextBlock := next |}.

Definition C : Block := statement "c" "" None.
Definition B : Block := statement "b" "" (Some C).
Definition A : Block := statement "a" "note" (Some B).

(** The rule of every statement block: a call of the name of its type. *)
Definition call_rule (block : Block) : string :=
  block_type block ++ "();" ++ nl.

(** Comments that are short enough to stay as they are, on one line. *)
Definition wrap (text : string) (limit : Z) : string := text.

Definition prefixLines (text prefix : string) : string := prefix ++ text.

Definition allNestedComments (block : Block) : string := "".

(** The state in the middle of a first pass over a workspace with the
    variables [x], [int] and [X], in which a rule asked for one more
    distinct name [x] and two rules recorded an import and a function. *)
Definition during_first_pass : State :=
  define "helper" ("int helper() {" ++ newlines 4 ++ "}")
    (define "import_math" ("import math;" ++ newlines 3 ++ "// m")
       (distinctName "x" Names.NAME_TYPE
          (init toLowerCase oneBased loaded))).

(** The state that this first pass leaves. *)
Definition after_first_pass : State :=
  match finish "a();" during_first_pass with
  | Some (_, st) => st
  | None => loaded
  end.

End Sample.

(** ** Further notions

    What the properties of Part III, which go beyond the sentences of the
    specification, are stated with. *)

(** The characters that [quote_] escapes (lines 169-172). *)
Definition is_special (c : ascii) : bool :=
  Ascii.eqb c "\" || Ascii.eqb c LF || Ascii.eqb c "$" || Ascii.eqb c "'".

(** How many characters of a text [quote_] escapes. *)
Fixpoint specials (s : string) : nat :=
  match s with
  | EmptyString => 0
  | String c s' => (if is_special c then 1 else 0) + specials s'
  end.

(** How the text between the quotes of a literal is read back: a backslash
    stands for the character that follows it.  The reading fails on a
    backslash at the end of the text and on a character of [is_special]
    that has no backslash in front of it. *)
Fixpoint unescape (s : string) : option string :=
  match s with
  | EmptyString => Some EmptyString
  | String c s' =>
      if Ascii.eqb c "\" then
        match s' with
        | String d s'' => option_map (String d) (unescape s'')
        | EmptyString => None
        end
      else if is_special c then None
      else option_map (String c) (unescape s')
  end.

(** A text without its last character, and that character. *)
Fixpoint but_last (s : string) : option (string * ascii) :=
  match s with
  | EmptyString => None
  | String c EmptyString => Some (EmptyString, c)
  | String c s' =>
      match but_last s' with
      | Some (body, last) => Some (String c body, last)
      | None => None
      end
  end.

(** A literal read back: the text between its two apostrophes,
    unescaped. *)
Definition unquote (s : string) : option string :=
  match s with
  | String open rest =>
      match but_last rest with
      | Some (body, close) =>
          if Ascii.eqb open "'" && Ascii.eqb close "'" then unescape body
          else None
      | None => None
      end
  | EmptyString => None
  end.

(** The block in a workspace with the given indexing, everything else
    alike. *)
Definition with_oneBasedIndex (oneBased : bool) (block : Block) : Block :=
  {| block_type := block_type block;
     workspace :=
       {| oneBasedIndex := oneBased;
          getAllVariables := getAllVariables (workspace block) |};
     getCommentText := getCommentText block;
     getProcedureDef := getProcedureDef block;
     outputConnection := outputConnection block;
     inputList := inputList block;
     nextBlock := nextBlock block |}.

(** [opt_delta || 0] (line 230). *)
Definition givenDelta (opt_delta : option Z) : Z :=
  match opt_delta with
  | Some d => d
  | None => 0%Z
  end.

(** The blocks plugged into the value inputs of a block, in the order of
    the inputs. *)
Definition value_children (inputs : list (Input Block)) : list Block :=
  flat_map
    (fun input =>
       if inputType_eqb (input_type input) INPUT_VALUE then
         match targetBlock input with
         | Some childBlock => [childBlock]
         | None => []
         end
       else [])
    inputs.

(** The comment lines that the value arguments of a block give: the
    comments nested in each plugged block, those that are not empty, each
    with its lines prefixed. *)
Definition argument_lines (prefixLines : string -> string -> string)
    (allNestedComments : Block -> string) (inputs : list (Input Block))
  : list string :=
  map (fun comment => prefixLines comment "// ")
    (filter (fun comment => negb (String.eqb comment ""))
       (map allNestedComments (value_children inputs))).

(** The comment lines that the comment of the block itself gives
    (lines 190-199). *)
Definition own_lines (wrap : string -> Z -> string)
    (prefixLines : string -> string -> string) (block : Block) : string :=
  let comment := wrap (getCommentText block) (COMMENT_WRAP - 3)%Z in
  if String.eqb comment "" then ""
  else if getProcedureDef block then prefixLines (comment ++ nl) "/// "
  else prefixLines (comment ++ nl) "// ".

(** A text without line feed, and a definition entry that is such a text
    and is not empty. *)
Fixpoint no_nl (s : string) : bool :=
  match s with
  | EmptyString => true
  | String c s' => negb (is_nl c) && no_nl s'
  end.

Definition one_line (s : string) : bool := negb (is_empty s) && no_nl s.

(** The header for entries of one line each: the imports on consecutive
    lines, a blank line, the other definitions with a blank line between
    them, then three line feeds. *)
Definition layout (imports definitions : list string) : string :=
  match definitions with
  | [] => join nl imports
  | _ => allDefs imports definitions
  end ++ newlines 3.

(** The key under which the registry files a name of a type. *)
Definition registry_key (toLowerCase : string -> string)
    (name type : string) : string :=
  toLowerCase name ++ "_" ++ type.

(** A registry without prefix in which every name on file is marked as in
    use, is not a reserved word, and stands for one key only. *)
Definition tidy (db : Names.t) : Prop :=
  Names.variablePrefix_ db = "" /\
  (forall (k v : string),
      lookup k (Names.db_ db) = Some v ->
      mem v (Names.dbReverse_ db) = true /\
      mem v (Names.reservedDict_ db) = false) /\
  (forall (k1 k2 v : string),
      lookup k1 (Names.db_ db) = Some v ->
      lookup k2 (Names.db_ db) = Some v -> k1 = k2).

(** * Part II: properties *)

(** ** Text *)

Lemma append_nil_r (s : string) : s ++ "" = s.
Proof. induction s as [|a s IH]; simpl; [reflexivity | now rewrite IH]. Qed.

Lemma append_assoc (a b c : string) : (a ++ b) ++ c = a ++ b ++ c.
Proof. induction a as [|x a IH]; simpl; [reflexivity | now rewrite IH]. Qed.

Lemma length_append (a b : string) :
  String.length (a ++ b) = String.length a + String.length b.
Proof. induction a as [|x a IH]; simpl; [reflexivity | now rewrite IH]. Qed.

Lemma strip_prefix_app (x t : string) : strip_prefix x (x ++ t) = Some t.
Proof.
  induction x as [|a x IH]; simpl; [reflexivity|].
  now rewrite Ascii.eqb_refl.
Qed.

Lemma strip_prefix_sound (x s t : string) :
  strip_prefix x s = Some t -> s = x ++ t.
Proof.
  revert s; induction x as [|a x IH]; simpl; intros s H.
  - now injection H as ->.
  - destruct s as [|b s]; [discriminate|].
    destruct (Ascii.eqb a b) eqn:E; [|discriminate].
    apply Ascii.eqb_eq in E; subst b.
    now rewrite (IH _ H).
Qed.

Lemma occurs_cons (x : string) (xs : list string) (s : string) :
  occurs (x :: xs) s =
  (match strip_prefix x s with Some t => occurs xs t | None => false end
   || match s with
      | EmptyString => false
      | String _ s' => occurs (x :: xs) s'
      end).
Proof. destruct s; reflexivity. Qed.

(** [occurs] decides [in_order]. *)
Lemma occurs_spec (xs : list string) (s : string) :
  in_order xs s <-> occurs xs s = true.
Proof.
  revert s; induction xs as [|x xs IH]; intros s.
  - simpl; tauto.
  - split.
    + intros (p & t & -> & Ht).
      induction p as [|a p IHp].
      * rewrite occurs_cons; simpl.
        rewrite strip_prefix_app.
        apply IH in Ht; now rewrite Ht.
      * change (String a p ++ x ++ t) with (String a (p ++ x ++ t)).
        rewrite occurs_cons; cbv match.
        rewrite IHp; apply orb_true_r.
    + induction s as [|a s IHs]; rewrite occurs_cons; intros H;
        apply orb_true_iff in H; destruct H as [H|H]; try discriminate.
      * destruct (strip_prefix x "") as [t|] eqn:E; [|discriminate].
        apply strip_prefix_sound in E.
        exists "", t; split; [exact E | now apply IH].
      * destruct (strip_prefix x (String a s)) as [t|] eqn:E; [|discriminate].
        apply strip_prefix_sound in E.
        exists "", t; split; [exact E | now apply IH].
      * destruct (IHs H) as (p & t & -> & Ht).
        exists (String a p), t; split; [reflexivity | exact Ht].
Qed.

Lemma not_in_order (xs : list string) (s : string) :
  occurs xs s = false -> ~ in_order xs s.
Proof.
  intros H Hin; apply occurs_spec in Hin; congruence.
Qed.

Lemma is_in_order (xs : list string) (s : string) :
  occurs xs s = true -> in_order xs s.
Proof. apply occurs_spec. Qed.

(** ** quote_ *)

Lemma replaceAll_app (c : ascii) (r a b : string) :
  replaceAll c r (a ++ b) = replaceAll c r a ++ replaceAll c r b.
Proof.
  induction a as [|x a IH]; simpl; [reflexivity|].
  destruct (Ascii.eqb x c); simpl; rewrite IH;
    [now rewrite append_assoc | reflexivity].
Qed.

(** The four passes, run in the order of the source, escape every character
    of the input once: no backslash that an earlier pass wrote is escaped
    again by a later one. *)
Lemma quote_passes (s : string) :
  replaceAll "'" "\'"
    (replaceAll "$" "\$"
       (replaceAll LF (String "\" nl) (replaceAll "\" "\\" s))) = escape s.
Proof.
  induction s as [|c s IH]; [reflexivity|].
  change (escape (String c s)) with (escape_char c ++ escape s).
  rewrite <- IH; clear IH.
  unfold escape_char.
  cbn [replaceAll].
  destruct (Ascii.eqb c "\") eqn:E1.
  { rewrite !replaceAll_app. reflexivity. }
  cbn [replaceAll].
  destruct (Ascii.eqb c LF) eqn:E2.
  { rewrite !replaceAll_app. reflexivity. }
  cbn [replaceAll].
  destruct (Ascii.eqb c "$") eqn:E3.
  { rewrite !replaceAll_app. reflexivity. }
  cbn [replaceAll].
  destruct (Ascii.eqb c "'") eqn:E4; reflexivity.
Qed.

(** Had the backslashes been escaped last, the backslash written in front
    of an apostrophe would have been doubled. *)
Example backslash_last_differs :
  replaceAll "\" "\\" (replaceAll "'" "\'" "'") = "\\'" /\
  replaceAll "'" "\'" (replaceAll "\" "\\" "'") = "\'".
Proof. split; reflexivity. Qed.

(** C4: [quote_] applied to [it's<LF>$x].  The apostrophe comes out as
    backslash-apostrophe and the dollar sign as backslash-dollar; the line
    feed comes out as a backslash followed by the line feed itself, for
    the replacement text of line 170 is ['\\\n'].  The result holds no
    backslash followed by the letter n, so that the sentence does not hold
    of the code.  For every input the four passes amount to escaping each
    character of the input once: a backslash of the input is doubled and
    no backslash written by an escape is escaped again. *)
Theorem quote_escapes :
  quote_ ("it's" ++ nl ++ "$x") = "'it\'s\" ++ nl ++ "\$x'" /\
  ~ contains "\n" (quote_ ("it's" ++ nl ++ "$x")) /\
  ~ quote_as_specified /\
  (forall s : string, quote_ s = "'" ++ escape s ++ "'") /\
  (forall s : string,
      escape (String "\" s) = "\\" ++ escape s /\
      escape (String LF s) = String "\" nl ++ escape s /\
      escape (String "$" s) = "\$" ++ escape s /\
      escape (String "'" s) = "\'" ++ escape s).
Proof.
  assert (N : ~ contains "\n" (quote_ ("it's" ++ nl ++ "$x")))
    by (apply not_in_order; reflexivity).
  split; [reflexivity|].
  split; [exact N|].
  split; [intros [H _]; exact (N H)|].
  split.
  - intros s; unfold quote_; cbv zeta; now rewrite quote_passes.
  - intros s; repeat split.
Qed.

(** ** Numerals *)

Lemma digit_value_range (c : ascii) :
  is_digit c = true -> (0 <= digit_value c <= 9)%Z.
Proof.
  unfold is_digit, digit_value; intros H.
  apply andb_true_iff in H; destruct H as [H1 H2].
  apply Nat.leb_le in H1, H2; lia.
Qed.

Lemma span_digits_range (s : string) :
  Forall (fun d => 0 <= d <= 9)%Z (fst (span_digits s)).
Proof.
  induction s as [|c s IH]; simpl; [constructor|].
  destruct (is_digit c) eqn:E; [|constructor].
  destruct (span_digits s) as [ds rest]; simpl in *.
  constructor; [now apply digit_value_range | exact IH].
Qed.

Lemma fold_digits_bound (ds : list Z) :
  Forall (fun d => 0 <= d <= 9)%Z ds ->
  forall acc : Z,
    (0 <= acc)%Z ->
    (acc * 10 ^ Z.of_nat (length ds)
     <= fold_left (fun a d => 10 * a + d) ds acc
     < (acc + 1) * 10 ^ Z.of_nat (length ds))%Z.
Proof.
  induction 1 as [|d ds Hd _ IH]; intros acc Hacc.
  - simpl; lia.
  - cbn [fold_left length].
    rewrite Nat2Z.inj_succ, Z.pow_succ_r by lia.
    specialize (IH (10 * acc + d)%Z ltac:(lia)).
    assert (0 < 10 ^ Z.of_nat (length ds))%Z by (apply Z.pow_pos_nonneg; lia).
    nia.
Qed.

Lemma digits_value_bound (ds : list Z) :
  Forall (fun d => 0 <= d <= 9)%Z ds ->
  (0 <= digits_value ds < 10 ^ Z.of_nat (length ds))%Z.
Proof.
  intros H; unfold digits_value.
  pose proof (fold_digits_bound ds H 0%Z ltac:(lia)); lia.
Qed.

(** Division that rounds toward zero drops the decimals. *)
Lemma quot_decimals (sign a r p : Z) :
  (sign = 1 \/ sign = -1)%Z ->
  (0 <= a)%Z -> (0 <= r < p)%Z ->
  (Z.quot (sign * (a * p + r)) p = sign * a)%Z.
Proof.
  intros Hs Ha Hr.
  assert (E : (Z.quot (a * p + r) p = a)%Z).
  { rewrite Z.quot_div_nonneg by nia.
    symmetry; apply Z.div_unique with (r := r); [left; lia | ring]. }
  destruct Hs as [-> | ->].
  - now rewrite !Z.mul_1_l.
  - replace (-1 * (a * p + r))%Z with (- (a * p + r))%Z by ring.
    rewrite Z.quot_opp_l by lia.
    rewrite E; ring.
Qed.

Lemma read_minus_sign (s : string) :
  (fst (read_minus s) = 1 \/ fst (read_minus s) = -1)%Z.
Proof.
  destruct s as [|c r]; simpl; [now left|].
  destruct (Ascii.eqb c "-"); simpl; [now right | now left].
Qed.

(** On a text that goes on with a digit after its optional minus sign,
    [parseInt] reads the sign as [isNumber] does. *)
Lemma read_sign_minus (s : string) :
  fst (span_digits (snd (read_minus s))) <> [] ->
  read_sign s = read_minus s.
Proof.
  destruct s as [|c r]; simpl; [reflexivity|].
  destruct (Ascii.eqb c "-") eqn:E1; [reflexivity|].
  destruct (Ascii.eqb c "+") eqn:E2; [|reflexivity].
  apply Ascii.eqb_eq in E2; subst c.
  simpl; intros H; now elim H.
Qed.

(** A numeral that [isNumber] accepts denotes a decimal number, of which
    [parseInt] gives the integer part. *)
Lemma isNumber_parseInt (s : string) :
  isNumber s = true ->
  exists (m : Z) (k : nat),
    decimal_value s = Some (m, k) /\
    parseInt s = safe (Z.quot m (10 ^ Z.of_nat k)).
Proof.
  unfold isNumber, decimal_value, parseInt.
  pose proof (read_sign_minus (skip_ws s)) as Hsign.
  pose proof (read_minus_sign (skip_ws s)) as Hone.
  destruct (read_minus (skip_ws s)) as [sign s1]; cbn [fst snd] in *.
  pose proof (span_digits_range s1) as Hds.
  destruct (span_digits s1) as [ds s2] eqn:Hspan; cbn [fst snd] in *.
  destruct ds as [|d ds]; [discriminate|].
  rewrite Hsign by discriminate.
  cbv match beta; rewrite Hspan; cbn [fst].
  assert (Hfr : Forall (fun d => 0 <= d <= 9)%Z (fst (read_fraction s2))).
  { destruct s2 as [|c r]; simpl; [constructor|].
    destruct (Ascii.eqb c "."); [|constructor].
    pose proof (span_digits_range r) as Hfs.
    destruct (span_digits r) as [fs r']; cbn [fst] in *.
    destruct fs; [constructor | exact Hfs]. }
  destruct (read_fraction s2) as [fs s3]; cbn [fst] in Hfr.
  intros Hend; rewrite Hend.
  eexists _, _; split; [reflexivity|].
  f_equal; symmetry.
  apply quot_decimals; [exact Hone | | ].
  - apply (digits_value_bound (d :: ds) Hds).
  - apply (digits_value_bound fs Hfr).
Qed.

(** A numeral without decimals is read in full. *)
Lemma isNumber_parseInt_integer (s : string) (m : Z) :
  decimal_value s = Some (m, O) ->
  isNumber s = true ->
  parseInt s = safe m.
Proof.
  intros Hd Hn.
  destruct (isNumber_parseInt s Hn) as (m' & k & Hd' & Hp).
  rewrite Hd in Hd'; injection Hd' as <- <-.
  now rewrite Hp, Z.quot_1_r.
Qed.

(** ** getAdjusted *)

Lemma safe_Num (z : Z) : is_safe z = true -> safe z = Num z.
Proof. unfold safe; now intros ->. Qed.

Lemma safe_not_NaN (z : Z) : safe z <> NaN.
Proof. unfold safe; destruct (is_safe z); discriminate. Qed.

Lemma number_add_not_NaN (a : number) (d : Z) :
  a <> NaN -> number_add a d <> NaN.
Proof.
  destruct a as [|z|]; cbn [number_add]; intros H.
  - now elim H.
  - destruct (is_safe z && is_safe d); [apply safe_not_NaN | discriminate].
  - discriminate.
Qed.

Lemma number_neg_not_NaN (a : number) : a <> NaN -> number_neg a <> NaN.
Proof.
  destruct a; cbn [number_neg]; intros H; try discriminate; now elim H.
Qed.

(** Within the safe integers the sum is the sum of the integers. *)
Lemma number_add_safe (z d : Z) :
  is_safe z = true -> is_safe d = true -> is_safe (z + d) = true ->
  number_add (safe z) d = Num (z + d).
Proof.
  intros Hz Hd Hs; rewrite (safe_Num z Hz); cbn [number_add].
  rewrite Hz, Hd; cbn [andb]; now apply safe_Num.
Qed.

Section AdjustProperties.

Variable bigNumberToString : Z -> string.
Variable valueToCode : Block -> string -> Z -> string.

(** The branch of lines 247-252. *)
Lemma getAdjusted_number (block : Block) (atId : string)
    (opt_delta : option Z) (opt_negate : bool) (opt_order : option Z) :
  isNumber (resolvedAt valueToCode block atId opt_delta opt_negate opt_order)
  = true ->
  getAdjusted bigNumberToString valueToCode block atId opt_delta opt_negate
    opt_order =
  VNumber
    (let n := number_add
                (parseInt (resolvedAt valueToCode block atId opt_delta
                             opt_negate opt_order))
                (adjustedDelta block opt_delta) in
     if opt_negate then number_neg n else n).
Proof.
  intros H; unfold getAdjusted; cbv zeta; now rewrite H.
Qed.

(** The branch of lines 253-275 for a delta that is not zero: the sum, as
    the operand of a unary minus when negation is requested, put in
    parentheses by the test [order >= innerOrder] of line 272. *)
Lemma getAdjusted_text (block : Block) (atId : string)
    (opt_delta : option Z) (opt_negate : bool) (opt_order : option Z) :
  let delta := adjustedDelta block opt_delta in
  let order := requiredOrder opt_order in
  let at_ := resolvedAt valueToCode block atId opt_delta opt_negate
               opt_order in
  isNumber at_ = false ->
  delta <> 0%Z ->
  getAdjusted bigNumberToString valueToCode block atId opt_delta opt_negate
    opt_order =
  VString
    (if opt_negate then
       parenthesize (ORDER_UNARY_PREFIX <=? order)%Z
         ("-(" ++ additive_text bigNumberToString at_ delta ++ ")")
     else
       parenthesize (ORDER_ADDITIVE <=? order)%Z
         (additive_text bigNumberToString at_ delta)).
Proof.
  intros delta order at_ Hnum Hdelta.
  subst delta order at_.
  unfold getAdjusted; cbv zeta.
  rewrite Hnum.
  unfold additive_text, parenthesize.
  assert (E : (adjustedDelta block opt_delta =? 0)%Z = false)
    by now apply Z.eqb_neq.
  destruct (0 <? adjustedDelta block opt_delta)%Z eqn:Hpos.
  - rewrite E; destruct opt_negate; reflexivity.
  - assert (Hneg : (adjustedDelta block opt_delta <? 0)%Z = true).
    { apply Z.ltb_lt. apply Z.ltb_ge in Hpos. lia. }
    rewrite Hneg, E; destruct opt_negate; reflexivity.
Qed.

(** What [getAdjusted] folds on a literal numeral, which denotes
    [m / 10^k]: [parseInt] reads the integer part, to which delta is added
    and which is negated on request.  The result is a number; it is the
    integer computed in this way when the integer part, delta and their
    sum are safe integers. *)
Lemma getAdjusted_folded (block : Block) (atId : string)
    (opt_delta : option Z) (opt_negate : bool) (opt_order : option Z) :
  let delta := adjustedDelta block opt_delta in
  let at_ := resolvedAt valueToCode block atId opt_delta opt_negate
               opt_order in
  isNumber at_ = true ->
  exists (m : Z) (k : nat) (n : number),
    decimal_value at_ = Some (m, k) /\
    parseInt at_ = safe (Z.quot m (10 ^ Z.of_nat k)) /\
    getAdjusted bigNumberToString valueToCode block atId opt_delta
      opt_negate opt_order = VNumber n /\
    n <> NaN /\
    (is_safe (Z.quot m (10 ^ Z.of_nat k)) = true ->
     is_safe delta = true ->
     is_safe (Z.quot m (10 ^ Z.of_nat k) + delta) = true ->
     n = Num (negate_if opt_negate (Z.quot m (10 ^ Z.of_nat k) + delta))).
Proof.
  intros delta at_ Hnum.
  subst delta at_.
  destruct (isNumber_parseInt _ Hnum) as (m & k & Hd & Hp).
  exists m, k; eexists.
  split; [exact Hd|]; split; [exact Hp|]; split.
  { rewrite getAdjusted_number by exact Hnum; reflexivity. }
  cbv zeta; rewrite Hp; split.
  - destruct opt_negate;
      [apply number_neg_not_NaN|]; apply number_add_not_NaN, safe_not_NaN.
  - intros Hq Hdelta Hsum.
    rewrite (number_add_safe _ _ Hq Hdelta Hsum).
    destruct opt_negate; reflexivity.
Qed.

(** C2, as the code has it: when the resolved operand is a literal numeral
    and delta (after the one-based-index adjustment) is not zero,
    [getAdjusted] returns a number, never a text.  [parseInt] reads the
    integer at the head of the operand, which for a numeral without
    decimals is the operand itself; when this integer, delta and their sum
    are safe integers (of magnitude 2^53 - 1 at most), the result is their
    sum, negated when negation is requested. *)
Theorem getAdjusted_literal (block : Block) (atId : string)
    (opt_delta : option Z) (opt_negate : bool) (opt_order : option Z) :
  let delta := adjustedDelta block opt_delta in
  let at_ := resolvedAt valueToCode block atId opt_delta opt_negate
               opt_order in
  isNumber at_ = true ->
  delta <> 0%Z ->
  exists (z : Z) (n : number),
    parseInt at_ = safe z /\
    (forall m : Z, decimal_value at_ = Some (m, O) -> z = m) /\
    getAdjusted bigNumberToString valueToCode block atId opt_delta
      opt_negate opt_order = VNumber n /\
    n <> NaN /\
    (is_safe z = true ->
     is_safe delta = true ->
     is_safe (z + delta) = true ->
     n = Num (negate_if opt_negate (z + delta))).
Proof.
  intros delta at_ Hnum _.
  destruct (getAdjusted_folded block atId opt_delta opt_negate opt_order
              Hnum) as (m & k & n & Hd & Hp & Hg & Hn & Hs).
  exists (Z.quot m (10 ^ Z.of_nat k)), n.
  split; [exact Hp|]; split; [|now repeat split].
  intros m' Hm'; subst at_; rewrite Hd in Hm'.
  injection Hm' as <- ->.
  apply Z.quot_1_r.
Qed.


(** A socket that gives the empty text is read as the default index. *)
Lemma resolvedAt_default (block : Block) (atId : string)
    (opt_delta : option Z) (opt_negate : bool) (opt_order : option Z) :
  (forall order : Z, valueToCode block atId order = "") ->
  resolvedAt valueToCode block atId opt_delta opt_negate opt_order =
  defaultAtIndex block.
Proof.
  intros H; unfold resolvedAt; cbv zeta.
  rewrite !H; unfold or_else; simpl.
  destruct (negb _), opt_negate; reflexivity.
Qed.

End AdjustProperties.

(** C1: the call on which the code departs from the sentence.  A variable
    [x] is plugged into the socket of a block of a zero-based workspace,
    delta is 1 and no negation is asked for: the operand is the text [x],
    which is no literal numeral.  Under a multiplication, whose order 3 is
    less than the additive order 4, the sentence wants the sum in
    parentheses: [getAdjusted] returns it bare, for line 272 tests
    [order >= innerOrder].  With no order required (ORDER_NONE, 99, which
    is greater than 4) the sentence wants the sum bare: [getAdjusted]
    returns it in parentheses.  So the sentence does not hold of the
    code. *)
Theorem getAdjusted_order_reversed :
  resolvedAt Sample.valueToCode
    (Sample.indexed Sample.zeroBased (Some (Sample.plugged "variables_get")))
    "AT" (Some 1%Z) false (Some ORDER_MULTIPLICATIVE) = "x" /\
  isNumber "x" = false /\
  adjustedDelta
    (Sample.indexed Sample.zeroBased (Some (Sample.plugged "variables_get")))
    (Some 1%Z) = 1%Z /\
  (requiredOrder (Some ORDER_MULTIPLICATIVE) <=? ORDER_ADDITIVE)%Z = true /\
  getAdjusted Sample.bigNumberToString Sample.valueToCode
    (Sample.indexed Sample.zeroBased (Some (Sample.plugged "variables_get")))
    "AT" (Some 1%Z) false (Some ORDER_MULTIPLICATIVE) = VString "x + 1" /\
  (requiredOrder None <=? ORDER_ADDITIVE)%Z = false /\
  getAdjusted Sample.bigNumberToString Sample.valueToCode
    (Sample.indexed Sample.zeroBased (Some (Sample.plugged "variables_get")))
    "AT" (Some 1%Z) false None = VString "(x + 1)" /\
  ~ adjusted_text_as_specified.
Proof.
  cbv zeta; repeat (split; [reflexivity|]).
  intros H.
  specialize (H Sample.bigNumberToString Sample.valueToCode
                (Sample.indexed Sample.zeroBased
                   (Some (Sample.plugged "variables_get")))
                "AT" (Some 1%Z) (Some ORDER_MULTIPLICATIVE)).
  cbv zeta in H.
  specialize (H eq_refl).
  vm_compute in H.
  specialize (H ltac:(discriminate)).
  discriminate H.
Qed.

(** The same sum plugged into a socket is put in parentheses by
    [valueToCode] under a multiplication, and left bare when no order is
    required. *)
Example valueToCode_parenthesizes :
  Generator.valueToCode (fun _ => ("x + 1", ORDER_ADDITIVE))
    (Sample.indexed Sample.zeroBased (Some (Sample.plugged "math_arithmetic")))
    "AT" ORDER_MULTIPLICATIVE = "(x + 1)" /\
  Generator.valueToCode (fun _ => ("x + 1", ORDER_ADDITIVE))
    (Sample.indexed Sample.zeroBased (Some (Sample.plugged "math_arithmetic")))
    "AT" ORDER_NONE = "x + 1".
Proof. split; reflexivity. Qed.

(** With negation and a one-based index the sum is wrapped twice under a
    multiplication. *)
Example getAdjusted_texts :
  getAdjusted Sample.bigNumberToString Sample.valueToCode
    (Sample.indexed Sample.oneBased (Some (Sample.plugged "variables_get")))
    "AT" None true (Some ORDER_MULTIPLICATIVE)
  = VString "(-(x - 1))".
Proof. reflexivity. Qed.

(** C2, as worded, fails on the literal 1.5 with delta 1: the result is 2,
    not 2.5. *)
Lemma getAdjusted_literal_counterexample : ~ folded_as_specified.
Proof.
  intros H.
  specialize (H Sample.bigNumberToString Sample.valueToCode
                (Sample.indexed Sample.zeroBased
                   (Some (Sample.plugged "math_number")))
                "AT" (Some 1%Z) false None).
  cbv zeta in H.
  destruct H as (m & k & z & Hd & Hg & Hz).
  - reflexivity.
  - vm_compute; discriminate.
  - vm_compute in Hd; injection Hd as <- <-.
    vm_compute in Hg; injection Hg as <-.
    vm_compute in Hz; discriminate Hz.
Qed.

(** The theorem at work: the literal 1.5 in the socket, delta 1 and
    negation give -2. *)
Lemma getAdjusted_literal_witness :
  getAdjusted Sample.bigNumberToString Sample.valueToCode
    (Sample.indexed Sample.zeroBased (Some (Sample.plugged "math_number")))
    "AT" (Some 1%Z) true None
  = VNumber (Num (-2)).
Proof.
  pose proof (getAdjusted_literal Sample.bigNumberToString
                Sample.valueToCode
                (Sample.indexed Sample.zeroBased
                   (Some (Sample.plugged "math_number")))
                "AT" (Some 1%Z) true None) as H.
  cbv zeta in H.
  destruct (H eq_refl ltac:(vm_compute; discriminate))
    as (z & n & Hp & _ & Hg & _ & Hn).
  rewrite Hg; f_equal.
  assert (Ez : z = 1%Z).
  { unfold safe in Hp; destruct (is_safe z); [|discriminate Hp].
    now injection Hp as <-. }
  subst z; apply Hn; reflexivity.
Defined.


(** The folded index does not keep the spelling of the literal. *)
Example getAdjusted_normalizes :
  getAdjusted Sample.bigNumberToString (fun _ _ _ => " 007 ")
    (Sample.indexed Sample.zeroBased None) "AT" (Some 1%Z) false None
  = VNumber (Num 8).
Proof. reflexivity. Qed.

(** Beyond the safe integers the model does not follow the folded
    index. *)
Example getAdjusted_beyond :
  getAdjusted Sample.bigNumberToString (fun _ _ _ => "9007199254740993")
    (Sample.indexed Sample.zeroBased None) "AT" (Some 1%Z) false None
  = VNumber Beyond /\
  getAdjusted Sample.bigNumberToString (fun _ _ _ => "")
    (Sample.indexed Sample.oneBased None) "AT" (Some 9007199254740994%Z)
    false None
  = VNumber Beyond.
Proof. split; reflexivity. Qed.

(** ** Statement chains *)

Section ScrubProperties.

Variable wrap : string -> Z -> string.
Variable prefixLines : string -> string -> string.
Variable allNestedComments : Block -> string.
Variable rule : Block -> string.

#[warnings="-notation-for-abbreviation"]
Local Notation commentCode :=
  (commentCode wrap prefixLines allNestedComments).
#[warnings="-notation-for-abbreviation"]
Local Notation chainToCode :=
  (Generator.chainToCode wrap prefixLines allNestedComments rule).
#[warnings="-notation-for-abbreviation"]
Local Notation blockToCode :=
  (Generator.blockToCode wrap prefixLines allNestedComments rule).

(** The text of a statement: its comments, its code, then the chain that
    follows it. *)
Lemma chainToCode_eq (block : Block) :
  chainToCode block =
  commentCode block ++ rule block ++ blockToCode (nextBlock block).
Proof. destruct block; reflexivity. Qed.

Lemma in_order_fold (xs : list string) (t : string) :
  in_order xs (fold_right append t xs).
Proof.
  induction xs as [|x xs IH]; simpl; [exact I|].
  exists "", (fold_right append t xs); split; [reflexivity | exact IH].
Qed.

(** Along a whole chain: the blocks in the order of the connections, each
    with its comments in front of its code. *)
Lemma chainToCode_chain :
  forall block : Block,
    chainToCode block =
    fold_right append ""
      (map (fun b => commentCode b ++ rule b) (chain block)).
Proof.
  fix IH 1; intros block.
  rewrite chainToCode_eq.
  destruct block as [t w c p o i [next|]]; cbn [chain nextBlock map fold_right].
  - cbn [Generator.blockToCode]; rewrite (IH next).
    now rewrite append_assoc.
  - cbn [Generator.blockToCode]; now rewrite append_assoc.
Qed.

(** C3, as the code has it: for every statement chain A, B, C the text
    generated from A is the comment text of A, then the code of A, then the
    comment text of B, then the code of B, then the comment text of C, then
    the code of C, then whatever follows C: the comments of a block come
    before its code, whichever blocks carry comments, and the blocks come
    in the order of the chain. *)
Theorem statement_chain_order (A B C : Block) :
  nextBlock A = Some B ->
  nextBlock B = Some C ->
  blockToCode (Some A) =
  commentCode A ++ rule A ++ commentCode B ++ rule B ++ commentCode C
  ++ rule C ++ blockToCode (nextBlock C) /\
  in_order
    [commentCode A; rule A; commentCode B; rule B; commentCode C; rule C]
    (blockToCode (Some A)).
Proof.
  intros HA HB.
  assert (E : blockToCode (Some A) =
              commentCode A ++ rule A ++ commentCode B ++ rule B
              ++ commentCode C ++ rule C ++ blockToCode (nextBlock C)).
  { cbn [Generator.blockToCode].
    rewrite (chainToCode_eq A), HA; cbn [Generator.blockToCode].
    rewrite (chainToCode_eq B), HB; cbn [Generator.blockToCode].
    now rewrite (chainToCode_eq C). }
  split; [exact E|].
  rewrite E.
  apply (in_order_fold
           [commentCode A; rule A; commentCode B; rule B; commentCode C;
            rule C]).
Qed.

End ScrubProperties.

(** C3, as worded, fails on a chain whose first block carries a comment:
    the comment of A is written before the code of A, not after it. *)
Lemma statement_chain_counterexample : ~ chain_order_as_specified.
Proof.
  intros H.
  specialize (H Sample.wrap Sample.prefixLines Sample.allNestedComments
                Sample.call_rule Sample.A Sample.B Sample.C
                eq_refl eq_refl).
  revert H; apply not_in_order; reflexivity.
Qed.

(** The theorem at work: the chain of the three sample blocks. *)
Lemma statement_chain_order_witness :
  Generator.blockToCode Sample.wrap Sample.prefixLines
    Sample.allNestedComments Sample.call_rule (Some Sample.A)
  = "// note" ++ nl ++ "a();" ++ nl ++ "b();" ++ nl ++ "c();" ++ nl.
Proof.
  apply (statement_chain_order Sample.wrap Sample.prefixLines
           Sample.allNestedComments Sample.call_rule
           Sample.A Sample.B Sample.C eq_refl eq_refl).
Defined.

(** ** Runs of line feeds *)

Lemma runs_le_cur (k : nat) (s : string) :
  forall cur : nat, runs_le k cur s = true -> cur <= k.
Proof.
  induction s as [|c s IH]; intros cur; simpl.
  - apply Nat.leb_le.
  - destruct (is_nl c).
    + intros H; apply IH in H; lia.
    + intros H; apply andb_true_iff in H; now apply Nat.leb_le.
Qed.

Lemma runs_le_mono (k k' : nat) (s : string) :
  k <= k' ->
  forall cur : nat, runs_le k cur s = true -> runs_le k' cur s = true.
Proof.
  intros Hk; induction s as [|c s IH]; intros cur; simpl.
  - intros H; apply Nat.leb_le in H; apply Nat.leb_le; lia.
  - destruct (is_nl c); [apply IH|].
    intros H; apply andb_true_iff in H; destruct H as [H1 H2].
    apply Nat.leb_le in H1.
    apply andb_true_iff; split; [apply Nat.leb_le; lia | now apply IH].
Qed.

Lemma runs_le_newlines (k n : nat) (t : string) :
  forall cur : nat,
    runs_le k cur (newlines n ++ t) = runs_le k (n + cur) t.
Proof.
  induction n as [|n IH]; intros cur; [reflexivity|].
  cbn [newlines append runs_le]; unfold is_nl; rewrite Ascii.eqb_refl.
  rewrite IH; f_equal; lia.
Qed.

(** A text that passes [runs_le k] holds no run of [k + 1] line feeds. *)
Lemma runs_le_no_run (k : nat) (p t : string) :
  forall cur : nat, runs_le k cur (p ++ newlines (S k) ++ t) = false.
Proof.
  induction p as [|c p IH]; intros cur.
  - cbn [append]; rewrite runs_le_newlines.
    destruct (runs_le k (S k + cur) t) eqn:E; [|reflexivity].
    apply runs_le_cur in E; lia.
  - cbn [append runs_le]; destruct (is_nl c); [apply IH|].
    rewrite IH; apply andb_false_r.
Qed.

Lemma runs_le_not_contains (k : nat) (s : string) :
  runs_le k 0 s = true -> ~ contains (newlines (S k)) s.
Proof.
  intros H (p & t & -> & _).
  now rewrite runs_le_no_run in H.
Qed.

Lemma runs_le_weaken (k : nat) (s : string) :
  forall cur cur' : nat,
    cur' <= cur -> runs_le k cur s = true -> runs_le k cur' s = true.
Proof.
  induction s as [|c s IH]; intros cur cur' Hc; simpl.
  - intros H; apply Nat.leb_le in H; apply Nat.leb_le; lia.
  - destruct (is_nl c); [apply IH; lia|].
    intros H; apply andb_true_iff in H; destruct H as [H1 H2].
    apply Nat.leb_le in H1.
    apply andb_true_iff; split; [apply Nat.leb_le; lia | exact H2].
Qed.

(** After [collapse] no run has more than two line feeds. *)
Lemma collapse_from_runs (s : string) :
  runs_le 2 2 (collapse_from true s) = true /\
  runs_le 2 0 (collapse_from false s) = true /\
  (starts_with_nl s = false -> runs_le 2 2 (collapse_from false s) = true).
Proof.
  induction s as [|c s (IHt & IHf & IHs)]; [now repeat split|].
  cbn [collapse_from starts_with_nl].
  destruct (is_nl c) eqn:Ec.
  - split; [exact IHt|]; split; [|discriminate].
    destruct (starts_with_nl s) eqn:Es.
    + change (nl ++ nl ++ collapse_from true s)
        with (newlines 2 ++ collapse_from true s).
      now rewrite runs_le_newlines.
    + cbn [runs_le]; rewrite Ec.
      apply (runs_le_weaken 2 _ 2 1); [lia | now apply IHs].
  - cbn [runs_le]; rewrite Ec, IHf; now repeat split.
Qed.

Lemma collapse_runs (s : string) : runs_le 2 0 (collapse s) = true.
Proof. apply collapse_from_runs. Qed.

(** ** The end of the header *)

Lemma all_nl_strip (s : string) : all_nl s = true -> strip_trailing s = "".
Proof. destruct s as [|c s]; [reflexivity|]; simpl; now intros ->. Qed.

Lemma strip_empty (s : string) : strip_trailing s = "" -> all_nl s = true.
Proof.
  destruct s as [|c s]; [reflexivity|].
  cbn [strip_trailing]; destruct (all_nl (String c s)); [reflexivity|].
  discriminate.
Qed.

Lemma replace_trailing_strip (s : string) :
  replace_trailing s = strip_trailing s ++ newlines 3.
Proof.
  induction s as [|c s IH]; [reflexivity|].
  cbn [replace_trailing strip_trailing].
  destruct (all_nl (String c s)); [reflexivity|].
  cbn [append]; now rewrite IH.
Qed.

Lemma strip_not_ends_nl (s : string) : ends_nl (strip_trailing s) = false.
Proof.
  induction s as [|c s IH]; [reflexivity|].
  cbn [strip_trailing].
  destruct (all_nl (String c s)) eqn:E; [reflexivity|].
  cbn [ends_nl].
  destruct (strip_trailing s) eqn:Es; [|exact IH].
  apply strip_empty in Es.
  cbn [all_nl] in E; rewrite Es, andb_true_r in E; exact E.
Qed.

Lemma strip_runs (k : nat) (s : string) :
  forall cur : nat,
    runs_le k cur s = true -> runs_le k cur (strip_trailing s) = true.
Proof.
  induction s as [|c s IH]; intros cur H; [exact H|].
  cbn [strip_trailing].
  destruct (all_nl (String c s)).
  - apply runs_le_cur in H; now apply Nat.leb_le.
  - cbn [runs_le] in *; destruct (is_nl c); [now apply IH|].
    apply andb_true_iff in H; destruct H as [H1 H2].
    rewrite H1; now apply IH.
Qed.

Lemma ends_nl_cons (c : ascii) (s : string) :
  s <> "" -> ends_nl (String c s) = ends_nl s.
Proof. destruct s; [now intros H; elim H | reflexivity]. Qed.

(** Line feeds added to a text that does not end with one start a run. *)
Lemma runs_le_app_newlines (k n : nat) (a : string) :
  n <= k ->
  ends_nl a = false ->
  forall cur : nat,
    (a = "" -> n + cur <= k) ->
    runs_le k cur a = true ->
    runs_le k cur (a ++ newlines n) = true.
Proof.
  intros Hn; induction a as [|c a IH]; intros He cur Hcur H.
  - cbn [append]; rewrite <- (append_nil_r (newlines n)), runs_le_newlines.
    apply Nat.leb_le; now apply Hcur.
  - destruct a as [|c' a'].
    + cbn [ends_nl] in He.
      cbn [append runs_le] in *; rewrite He in *.
      apply andb_true_iff in H; destruct H as [H1 _]; rewrite H1.
      rewrite <- (append_nil_r (newlines n)), runs_le_newlines.
      apply Nat.leb_le; lia.
    + rewrite ends_nl_cons in He by discriminate.
      change (String c (String c' a') ++ newlines n)
        with (String c (String c' a' ++ newlines n)).
      cbn [runs_le] in H |- *.
      destruct (is_nl c).
      * apply IH; [exact He | discriminate | exact H].
      * apply andb_true_iff in H; destruct H as [H1 H2]; rewrite H1.
        apply IH; [exact He | discriminate | exact H2].
Qed.

(** The header holds no run of four line feeds. *)
Lemma header_runs (s : string) :
  runs_le 3 0 (replace_trailing (collapse s)) = true.
Proof.
  rewrite replace_trailing_strip.
  apply runs_le_app_newlines.
  - lia.
  - apply strip_not_ends_nl.
  - lia.
  - apply strip_runs, (runs_le_mono 2 3); [lia | apply collapse_runs].
Qed.

(** ** What the line feeds leave untouched *)

Lemma remove_nl_app (a b : string) :
  remove_nl (a ++ b) = remove_nl a ++ remove_nl b.
Proof.
  induction a as [|c a IH]; [reflexivity|].
  cbn [append remove_nl]; destruct (is_nl c); [exact IH|].
  cbn [append]; now rewrite IH.
Qed.

Lemma remove_nl_all_nl (s : string) : all_nl s = true -> remove_nl s = "".
Proof.
  induction s as [|c s IH]; [reflexivity|].
  cbn [all_nl remove_nl]; intros H.
  apply andb_true_iff in H; destruct H as [-> H]; now apply IH.
Qed.

Lemma remove_nl_collapse_from (s : string) :
  forall in_match : bool, remove_nl (collapse_from in_match s) = remove_nl s.
Proof.
  induction s as [|c s IH]; intros in_match; [reflexivity|].
  cbn [collapse_from remove_nl].
  destruct (is_nl c) eqn:Ec.
  - destruct in_match; [apply IH|].
    destruct (starts_with_nl s).
    + rewrite !remove_nl_app; cbn; apply IH.
    + cbn [remove_nl]; rewrite Ec; apply IH.
  - cbn [remove_nl]; rewrite Ec; now rewrite IH.
Qed.

Lemma remove_nl_replace_trailing (s : string) :
  remove_nl (replace_trailing s) = remove_nl s.
Proof.
  induction s as [|c s IH]; [reflexivity|].
  cbn [replace_trailing].
  destruct (all_nl (String c s)) eqn:E.
  - now rewrite (remove_nl_all_nl _ E).
  - cbn [remove_nl]; destruct (is_nl c); now rewrite IH.
Qed.

Lemma remove_nl_join (sep : string) (l : list string) :
  all_nl sep = true ->
  remove_nl (join sep l) = concat_all (map remove_nl l).
Proof.
  intros Hsep; induction l as [|x l IH]; [reflexivity|].
  destruct l as [|y l].
  - cbn; now rewrite append_nil_r.
  - change (join sep (x :: y :: l)) with (x ++ sep ++ join sep (y :: l)).
    rewrite !remove_nl_app, (remove_nl_all_nl _ Hsep), IH.
    reflexivity.
Qed.

(** ** finish *)

Lemma sort_definitions_from (entries : list (string * string)) :
  forall imports definitions : list string,
    fold_left
      (fun '(imports, definitions) '(name, def) =>
         if is_import def then ((imports ++ [def])%list, definitions)
         else (imports, (definitions ++ [def])%list))
      entries (imports, definitions)
    = ((imports ++ import_entries entries)%list,
       (definitions ++ other_entries entries)%list).
Proof.
  unfold import_entries, other_entries.
  induction entries as [|[name def] entries IH]; intros imports definitions.
  - cbn; now rewrite !app_nil_r.
  - cbn [fold_left map filter snd].
    destruct (is_import def); cbn [negb]; rewrite IH;
      now rewrite <- ?app_assoc.
Qed.

(** The two lists of [finish]: the imports and the other entries, each in
    the order of the table. *)
Lemma sort_definitions_eq (entries : list (string * string)) :
  sort_definitions entries = (import_entries entries, other_entries entries).
Proof. apply (sort_definitions_from entries [] []). Qed.

(** [finish] once the registry exists: the header, the body as it is, and
    a state without tables, with the registry reset. *)
Lemma finish_eq (code : string) (st : State) (db : Names.t) :
  variableDB_ st = Some db ->
  finish code st =
  Some (header st ++ code,
        {| definitions_ := None;
           functionNames_ := None;
           variableDB_ := Some (Names.reset db) |}).
Proof.
  intros H; unfold finish, header, table; cbv zeta.
  now rewrite sort_definitions_eq, H.
Qed.

Lemma length_newlines (n : nat) : String.length (newlines n) = n.
Proof. induction n as [|n IH]; [reflexivity | simpl; now rewrite IH]. Qed.

(** C5, as worded, fails in both halves.  A body that holds three blank
    lines keeps them: [finish] appends the body as it is.  And an import
    entry need not be found in the output as it is: its runs of line feeds
    are collapsed with the rest of the header. *)
Lemma finish_layout_counterexample :
  ~ finish_blank_lines_as_specified /\
  ~ finish_imports_as_specified /\
  ~ finish_layout_as_specified.
Proof.
  assert (Hblank : ~ finish_blank_lines_as_specified).
  { intros H.
    destruct (H ("a();" ++ newlines 4 ++ "b();")
                (init Sample.toLowerCase Sample.zeroBased loaded)
                (Names.new RESERVED_WORDS_) eq_refl)
      as (out & st' & Hf & Hno).
    rewrite (finish_eq _ (init Sample.toLowerCase Sample.zeroBased loaded)
               (Names.new RESERVED_WORDS_) eq_refl) in Hf.
    injection Hf as <- _.
    apply Hno, is_in_order; reflexivity. }
  split; [exact Hblank|]; split.
  - intros H.
    destruct (variableDB_ Sample.during_first_pass) as [db|] eqn:Edb;
      [|discriminate Edb].
    destruct (H "a();" Sample.during_first_pass db Edb)
      as (out & st' & Hf & Hin).
    rewrite (finish_eq _ _ _ Edb) in Hf.
    injection Hf as <- _.
    specialize (Hin ("import math;" ++ newlines 3 ++ "// m")
                  "var x, int2, x;").
    revert Hin; cbv beta.
    intros Hin.
    apply (not_in_order
             ["import math;" ++ newlines 3 ++ "// m"; "var x, int2, x;"]
             (header Sample.during_first_pass ++ "a();"));
      [reflexivity|].
    apply Hin; vm_compute; auto.
  - intros [H _]; exact (Hblank H).
Qed.

(** The output of the two samples. *)
Example finish_outputs :
  option_map fst
    (finish ("a();" ++ newlines 4 ++ "b();")
       (init Sample.toLowerCase Sample.zeroBased loaded))
  = Some (newlines 3 ++ "a();" ++ newlines 4 ++ "b();") /\
  option_map fst (finish "a();" Sample.during_first_pass)
  = Some ("import math;" ++ newlines 2 ++ "// m" ++ newlines 2
          ++ "var x, int2, x;" ++ newlines 2
          ++ "int helper() {" ++ newlines 2 ++ "}" ++ newlines 3 ++ "a();").
Proof. split; reflexivity. Qed.

(** C5, as the code has it: once the registry exists, [finish] returns a
    header followed by the body as it is.  The header depends on the
    definition table alone and never holds three blank lines in a row
    (four line feeds); the body may hold any.  Line feeds apart, the header
    is made of the entries that start with the import prefix, in the order
    of the table, followed by all the other entries, in the order of the
    table: every import comes before every other definition. *)
Theorem finish_layout (st : State) (db : Names.t) :
  variableDB_ st = Some db ->
  (forall code : string,
      exists st' : State, finish code st = Some (header st ++ code, st')) /\
  ~ three_blank_lines (header st) /\
  remove_nl (header st) =
  concat_all (map remove_nl (import_entries (table st)))
  ++ concat_all (map remove_nl (other_entries (table st))).
Proof.
  intros H; split; [|split].
  - intros code; eexists; apply (finish_eq code st db H).
  - apply (runs_le_not_contains 3), header_runs.
  - unfold header, collapse, allDefs.
    rewrite remove_nl_replace_trailing, remove_nl_collapse_from.
    rewrite !remove_nl_app.
    rewrite (remove_nl_join nl) by reflexivity.
    rewrite (remove_nl_join (nl ++ nl)) by reflexivity.
    reflexivity.
Qed.

(** The theorem at work: the table of the sample pass, with an import
    recorded after the variables. *)
Lemma finish_layout_witness :
  (forall code : string,
      exists st' : State,
        finish code Sample.during_first_pass
        = Some (header Sample.during_first_pass ++ code, st')) /\
  ~ three_blank_lines (header Sample.during_first_pass) /\
  remove_nl (header Sample.during_first_pass) =
  "import math;// m" ++ "var x, int2, x;int helper() {}".
Proof.
  apply (finish_layout Sample.during_first_pass
           (snd (Names.getDistinctName
                   (snd (getNames Sample.toLowerCase (Names.new RESERVED_WORDS_)
                           ["x"; "int"; "X"]))
                   "x" Names.NAME_TYPE))).
  vm_compute; reflexivity.
Defined.

(** C9: once the registry exists, the text that [finish] returns ends with
    exactly three line feeds followed by the body as it is: what stands in
    front of the three line feeds does not end with a line feed.  With an
    empty definition table the result is three line feeds followed by the
    body; in no case is it the body alone. *)
Theorem finish_tail (code : string) (st : State) (db : Names.t) :
  variableDB_ st = Some db ->
  exists (pre : string) (st' : State),
    finish code st = Some (pre ++ newlines 3 ++ code, st') /\
    ends_nl pre = false /\
    (table st = [] -> pre = "") /\
    pre ++ newlines 3 ++ code <> code.
Proof.
  intros H.
  exists (strip_trailing
            (collapse (allDefs (import_entries (table st))
                         (other_entries (table st))))).
  eexists; repeat split.
  - rewrite (finish_eq code st db H); unfold header.
    now rewrite replace_trailing_strip, append_assoc.
  - apply strip_not_ends_nl.
  - intros ->; reflexivity.
  - intros E; apply (f_equal String.length) in E.
    rewrite !length_append, length_newlines in E; lia.
Qed.

(** The theorem at work: a pass without any definition. *)
Lemma finish_tail_witness :
  exists (pre : string) (st' : State),
    finish "a();" (init Sample.toLowerCase Sample.zeroBased loaded)
    = Some (pre ++ newlines 3 ++ "a();", st') /\
    ends_nl pre = false /\
    (table (init Sample.toLowerCase Sample.zeroBased loaded) = [] ->
     pre = "") /\
    pre ++ newlines 3 ++ "a();" <> "a();".
Proof.
  apply (finish_tail "a();" (init Sample.toLowerCase Sample.zeroBased loaded)
           (Names.new RESERVED_WORDS_)).
  reflexivity.
Defined.

Example finish_without_definitions :
  option_map fst
    (finish "a();" (init Sample.toLowerCase Sample.zeroBased loaded))
  = Some (newlines 3 ++ "a();").
Proof. reflexivity. Qed.

(** ** init *)

Section PassProperties.

Variable toLowerCase : string -> string.

Lemma getNames_length (variables : list string) :
  forall db : Names.t,
    length (fst (getNames toLowerCase db variables)) = length variables.
Proof.
  induction variables as [|name variables IH]; intros db; [reflexivity|].
  cbn [getNames].
  destruct (Names.getName toLowerCase db name Names.NAME_TYPE) as [defvar db1].
  specialize (IH db1).
  destruct (getNames toLowerCase db1 variables) as [defvars db2].
  cbn [fst length] in *; now rewrite IH.
Qed.

(** The registry at the start of a pass holds no name. *)
Lemma init_variableDB_empty (st : State) :
  Names.db_ (init_variableDB st) = [] /\
  Names.dbReverse_ (init_variableDB st) = [].
Proof. unfold init_variableDB; destruct (variableDB_ st); now split. Qed.

(** ** The name registry *)

Lemma mem_In (x : string) (l : list string) : mem x l = true -> In x l.
Proof.
  unfold mem; intros H.
  apply existsb_exists in H; destruct H as (y & Hy & E).
  apply String.eqb_eq in E; now subst.
Qed.

Lemma append_inj_l (s a b : string) : s ++ a = s ++ b -> a = b.
Proof.
  induction s as [|c s IH]; simpl; intros H; [exact H|].
  injection H as H; now apply IH.
Qed.

Lemma suffix_inj (i j : nat) : Names.suffix i = Names.suffix j -> i = j.
Proof.
  assert (Hne : forall k, NilEmpty.string_of_uint (Nat.to_uint (S k)) <> "").
  { intros k E.
    pose proof (NilEmpty.usu (Nat.to_uint (S k))) as U.
    rewrite E in U.
    change (NilEmpty.uint_of_string "") with (Some Decimal.Nil) in U.
    injection U as U.
    apply (f_equal Nat.of_uint) in U.
    rewrite Unsigned.of_to in U; discriminate U. }
  destruct i as [|i], j as [|j]; cbn [Names.suffix]; intros E.
  - reflexivity.
  - symmetry in E; now apply Hne in E.
  - now apply Hne in E.
  - apply (f_equal NilEmpty.uint_of_string) in E.
    rewrite !NilEmpty.usu in E; injection E as E.
    now apply Unsigned.to_uint_inj.
Qed.

Lemma next_suffix_gt (i : nat) : i < Names.next_suffix i.
Proof. destruct i; cbn; lia. Qed.

Lemma taken_In (n : Names.t) (candidate : string) :
  Names.taken n candidate = true ->
  In candidate (Names.dbReverse_ n ++ Names.reservedDict_ n)%list.
Proof.
  unfold Names.taken; intros H.
  apply orb_true_iff in H; apply in_or_app.
  destruct H as [H|H]; [left | right]; now apply mem_In.
Qed.

(** The loop of [getDistinctName] stops on a free name before its rounds
    run out: the candidates are pairwise different, and there are no more
    names in use or reserved than rounds. *)
Lemma search_free_from (n : Names.t) (safeName : string) :
  forall (fuel i : nat) (seen : list nat),
    NoDup seen ->
    (forall j : nat,
        In j seen ->
        j < i /\ Names.taken n (safeName ++ Names.suffix j) = true) ->
    length (Names.dbReverse_ n) + length (Names.reservedDict_ n)
    <= length seen + fuel ->
    Names.taken n
      (safeName ++ Names.suffix (Names.search fuel n safeName i)) = false.
Proof.
  induction fuel as [|fuel IH]; intros i seen Hnd Hseen Hlen;
    cbn [Names.search];
    destruct (Names.taken n (safeName ++ Names.suffix i)) eqn:E;
    try exact E.
  - exfalso.
    assert (Hnd' : NoDup (i :: seen)).
    { constructor; [|exact Hnd].
      intros Hin; apply Hseen in Hin; lia. }
    assert (Hmap : NoDup (map (fun j => safeName ++ Names.suffix j)
                            (i :: seen))).
    { apply NoDup_map_NoDup_ForallPairs; [|exact Hnd'].
      intros a b _ _ Hab; now apply append_inj_l, suffix_inj in Hab. }
    apply NoDup_incl_length
      with (l' := (Names.dbReverse_ n ++ Names.reservedDict_ n)%list)
      in Hmap.
    + rewrite length_map, length_app in Hmap; cbn [length] in Hmap; lia.
    + intros c Hc; apply in_map_iff in Hc; destruct Hc as (j & <- & Hj).
      apply taken_In.
      destruct Hj as [<- | Hj]; [exact E | now apply Hseen].
  - apply (IH (Names.next_suffix i) (i :: seen)).
    + constructor; [|exact Hnd].
      intros Hin; apply Hseen in Hin; lia.
    + intros j [<- | Hj].
      * split; [apply next_suffix_gt | exact E].
      * apply Hseen in Hj; pose proof (next_suffix_gt i); split; [lia|].
        apply Hj.
    + cbn [length]; lia.
Qed.

Lemma search_free (n : Names.t) (safeName : string) :
  Names.taken n
    (safeName
     ++ Names.suffix
          (Names.search
             (length (Names.dbReverse_ n) + length (Names.reservedDict_ n))
             n safeName 0)) = false.
Proof.
  apply (search_free_from n safeName _ 0 []).
  - constructor.
  - intros j [].
  - cbn [length]; lia.
Qed.

(** The name that [getDistinctName] gives is neither in use nor reserved. *)
Lemma getDistinctName_free (n : Names.t) (name type : string) :
  exists i : nat,
    fst (Names.getDistinctName n name type) =
    Names.prefix_for n type ++ Names.safeName_ name ++ Names.suffix i /\
    Names.taken n (Names.safeName_ name ++ Names.suffix i) = false.
Proof.
  eexists; split; [reflexivity | apply search_free].
Qed.

Lemma reset_reset (db : Names.t) : Names.reset (Names.reset db) = Names.reset db.
Proof. reflexivity. Qed.

Lemma reset_new (words : string) :
  Names.reset (Names.new words) = Names.new words.
Proof. reflexivity. Qed.

Lemma reset_getDistinctName (db : Names.t) (name type : string) :
  Names.reset (snd (Names.getDistinctName db name type)) = Names.reset db.
Proof. reflexivity. Qed.

Lemma reset_getName (db : Names.t) (name type : string) :
  Names.reset (snd (Names.getName toLowerCase db name type)) = Names.reset db.
Proof.
  unfold Names.getName; cbv zeta.
  destruct (lookup _ (Names.db_ db)); reflexivity.
Qed.

Lemma reset_getNames (variables : list string) :
  forall db : Names.t,
    Names.reset (snd (getNames toLowerCase db variables)) = Names.reset db.
Proof.
  induction variables as [|name variables IH]; intros db; [reflexivity|].
  cbn [getNames].
  pose proof (reset_getName db name Names.NAME_TYPE) as H1.
  destruct (Names.getName toLowerCase db name Names.NAME_TYPE) as [defvar db1].
  specialize (IH db1).
  destruct (getNames toLowerCase db1 variables) as [defvars db2].
  cbn [snd] in *; congruence.
Qed.

Lemma lookup_assign {A : Type} (k k' : string) (v : A)
    (l : list (string * A)) :
  lookup k' (assign k v l) =
  if String.eqb k' k then Some v else lookup k' l.
Proof.
  induction l as [|[k0 v0] l IH]; [reflexivity|].
  cbn [assign].
  destruct (String.eqb_spec k k0) as [<-|Hk]; cbn [lookup].
  - destruct (String.eqb k' k); reflexivity.
  - rewrite IH.
    destruct (String.eqb_spec k' k0) as [->|Hk'];
      [|reflexivity].
    destruct (String.eqb_spec k0 k) as [E|_]; [congruence | reflexivity].
Qed.

(** [getNames] asks the registry for the names, one variable after the
    other. *)
Lemma getNames_resolved (variables : list string) :
  forall db : Names.t,
    resolved toLowerCase db variables
      (fst (getNames toLowerCase db variables))
      (snd (getNames toLowerCase db variables)).
Proof.
  induction variables as [|name variables IH]; intros db; [constructor|].
  cbn [getNames].
  destruct (Names.getName toLowerCase db name Names.NAME_TYPE)
    as [defvar db1] eqn:E.
  specialize (IH db1).
  destruct (getNames toLowerCase db1 variables) as [defvars db2].
  cbn [fst snd] in *.
  now apply (resolved_cons toLowerCase db db1 db2).
Qed.

Lemma substr_app (p s : string) :
  Names.substr (String.length p) (p ++ s) = s.
Proof.
  induction p as [|c p IH]; [destruct s; reflexivity | exact IH].
Qed.

(** What a request does to the registry: the prefix stays; the name that
    is returned is on file under the key of the request, without the
    prefix; the names on file stay on file; and no other key is added. *)
Lemma getName_files (db : Names.t) (name type : string) :
  Names.variablePrefix_ (snd (Names.getName toLowerCase db name type))
  = Names.variablePrefix_ db /\
  (exists v : string,
      lookup (registry_key toLowerCase name type)
        (Names.db_ (snd (Names.getName toLowerCase db name type))) = Some v /\
      fst (Names.getName toLowerCase db name type)
      = Names.prefix_for db type ++ v) /\
  (forall k v : string,
      lookup k (Names.db_ db) = Some v ->
      lookup k (Names.db_ (snd (Names.getName toLowerCase db name type)))
      = Some v) /\
  (forall k v : string,
      lookup k (Names.db_ (snd (Names.getName toLowerCase db name type)))
      = Some v ->
      k = registry_key toLowerCase name type \/
      lookup k (Names.db_ db) = Some v).
Proof.
  unfold Names.getName; cbv zeta.
  fold (registry_key toLowerCase name type).
  destruct (lookup (registry_key toLowerCase name type) (Names.db_ db))
    as [known|] eqn:E; cbn [fst snd].
  - split; [reflexivity|]; split; [now exists known|]; split; auto.
  - unfold Names.getDistinctName; cbv zeta.
    cbn [fst snd Names.db_ Names.variablePrefix_].
    rewrite substr_app.
    split; [reflexivity|]; split; [|split].
    + eexists; split; [|reflexivity].
      rewrite lookup_assign; now rewrite String.eqb_refl.
    + intros k v H; rewrite lookup_assign.
      destruct (String.eqb_spec k (registry_key toLowerCase name type))
        as [->|_]; [congruence | exact H].
    + intros k v H; rewrite lookup_assign in H.
      destruct (String.eqb_spec k (registry_key toLowerCase name type))
        as [->|_]; [now left | now right].
Qed.

(** The same along the loop of [init]: every variable has the name that
    was declared for it on file, and the keys that the loop adds are those
    of the variables. *)
Lemma getNames_files (variables : list string) :
  forall db : Names.t,
    Names.variablePrefix_ (snd (getNames toLowerCase db variables))
    = Names.variablePrefix_ db /\
    Forall2
      (fun name emitted =>
         exists v : string,
           lookup (registry_key toLowerCase name Names.NAME_TYPE)
             (Names.db_ (snd (getNames toLowerCase db variables))) = Some v /\
           emitted = Names.variablePrefix_ db ++ v)
      variables (fst (getNames toLowerCase db variables)) /\
    (forall k v : string,
        lookup k (Names.db_ db) = Some v ->
        lookup k (Names.db_ (snd (getNames toLowerCase db variables)))
        = Some v) /\
    (forall k v : string,
        lookup k (Names.db_ (snd (getNames toLowerCase db variables)))
        = Some v ->
        (exists name : string,
            In name variables /\
            k = registry_key toLowerCase name Names.NAME_TYPE) \/
        lookup k (Names.db_ db) = Some v).
Proof.
  induction variables as [|name variables IH]; intros db.
  - cbn [getNames fst snd].
    split; [reflexivity|]; split; [constructor|]; split; auto.
  - cbn [getNames].
    destruct (getName_files db name Names.NAME_TYPE)
      as (P1 & (v1 & L1 & E1) & S1 & K1).
    destruct (Names.getName toLowerCase db name Names.NAME_TYPE)
      as [defvar db1].
    cbn [fst snd] in *.
    destruct (IH db1) as (P2 & F2 & S2 & K2).
    destruct (getNames toLowerCase db1 variables) as [defvars db2].
    cbn [fst snd] in *.
    split; [congruence|]; split; [|split].
    + constructor.
      * exists v1; split; [now apply S2 | exact E1].
      * rewrite <- P1; exact F2.
    + intros k v H; now apply S2, S1.
    + intros k v H; destruct (K2 k v H) as [(x & Hx & ->) | H'].
      * left; exists x; split; [now right | reflexivity].
      * destruct (K1 k v H') as [-> | H''].
        -- left; exists name; split; [now left | reflexivity].
        -- now right.
Qed.

(** C6: for every workspace and every state, [init] leaves an empty table
    of function names and a definition table that holds the entry
    [variables], and nothing else, if and only if the workspace declares a
    variable.  The registry is created from the reserved words when there
    is none and reset when there is one, so that it holds no name; the
    names that the entry lists are those that this registry gives when it
    is asked with [getName] for the variables, in the order of the
    workspace, and the registry is kept as these requests leave it: it
    has the name declared for each variable on file under the key of the
    variable, and nothing on file but the variables of the workspace. *)
Theorem init_resets (ws : Workspace) (st : State) :
  exists (db : Names.t) (names : list string) (db' : Names.t),
    (variableDB_ st = None -> db = Names.new RESERVED_WORDS_) /\
    (forall old : Names.t, variableDB_ st = Some old -> db = Names.reset old) /\
    Names.db_ db = [] /\
    Names.dbReverse_ db = [] /\
    resolved toLowerCase db (getAllVariables ws) names db' /\
    functionNames_ (init toLowerCase ws st) = Some [] /\
    variableDB_ (init toLowerCase ws st) = Some db' /\
    definitions_ (init toLowerCase ws st) =
    Some (match getAllVariables ws with
          | [] => []
          | _ => [("variables", "var " ++ join ", " names ++ ";")]
          end) /\
    (lookup "variables" (table (init toLowerCase ws st)) <> None
     <-> getAllVariables ws <> []) /\
    Forall2
      (fun name emitted =>
         exists v : string,
           lookup (registry_key toLowerCase name Names.NAME_TYPE)
             (Names.db_ db') = Some v /\
           emitted = Names.variablePrefix_ db ++ v)
      (getAllVariables ws) names /\
    (forall k v : string,
        lookup k (Names.db_ db') = Some v ->
        exists name : string,
          In name (getAllVariables ws) /\
          k = registry_key toLowerCase name Names.NAME_TYPE).
Proof.
  exists (init_variableDB st),
    (fst (getNames toLowerCase (init_variableDB st) (getAllVariables ws))),
    (snd (getNames toLowerCase (init_variableDB st) (getAllVariables ws))).
  split; [unfold init_variableDB; now intros ->|].
  split; [unfold init_variableDB; now intros old ->|].
  split; [apply init_variableDB_empty|].
  split; [apply init_variableDB_empty|].
  split; [apply getNames_resolved|].
  destruct (getNames_files (getAllVariables ws) (init_variableDB st))
    as (_ & F & _ & K).
  assert (T : functionNames_ (init toLowerCase ws st) = Some [] /\
              variableDB_ (init toLowerCase ws st) =
              Some (snd (getNames toLowerCase (init_variableDB st)
                           (getAllVariables ws))) /\
              definitions_ (init toLowerCase ws st) =
              Some (match getAllVariables ws with
                    | [] => []
                    | _ =>
                        [("variables",
                          "var "
                          ++ join ", "
                               (fst (getNames toLowerCase
                                       (init_variableDB st)
                                       (getAllVariables ws)))
                          ++ ";")]
                    end) /\
              (lookup "variables" (table (init toLowerCase ws st)) <> None
               <-> getAllVariables ws <> [])).
  { unfold init, table; cbv zeta.
    destruct (getAllVariables ws) as [|v vs] eqn:Ev.
    - cbn; repeat split; try reflexivity; intros H; now elim H.
    - destruct (getNames toLowerCase (init_variableDB st) (v :: vs))
        as [defvars db'].
      cbn [fst snd definitions_ functionNames_ variableDB_ assign] in *.
      repeat split; try reflexivity; intros; discriminate. }
  destruct T as (T1 & T2 & T3 & T4).
  split; [exact T1|]; split; [exact T2|]; split; [exact T3|].
  split; [exact T4|]; split; [exact F|].
  intros k v H; destruct (K k v H) as [Hk | H']; [exact Hk|].
  rewrite (proj1 (init_variableDB_empty st)) in H'; discriminate H'.
Qed.

(** ** Passes *)

Lemma init_variableDB_seeded (st : State) :
  seeded st -> init_variableDB st = Names.new RESERVED_WORDS_.
Proof.
  unfold seeded, init_variableDB; intros H.
  destruct (variableDB_ st) as [db|]; [now apply H | reflexivity].
Qed.

(** [init] reads of the state nothing but the registry that it resets. *)
Lemma init_eq (ws : Workspace) (st st' : State) :
  init_variableDB st = init_variableDB st' ->
  init toLowerCase ws st = init toLowerCase ws st'.
Proof. unfold init; cbv zeta; now intros ->. Qed.

Lemma init_registry (ws : Workspace) (st : State) :
  variableDB_ (init toLowerCase ws st) =
  Some (snd (getNames toLowerCase (init_variableDB st) (getAllVariables ws))).
Proof.
  unfold init; cbv zeta.
  destruct (getAllVariables ws) as [|v vs]; [reflexivity|].
  destruct (getNames toLowerCase (init_variableDB st) (v :: vs)); reflexivity.
Qed.

Lemma step_seeded (st st' : State) :
  step toLowerCase st st' -> seeded st -> seeded st'.
Proof.
  intros Hstep Hst; destruct Hstep; intros db' Hdb'.
  - rewrite init_registry in Hdb'; injection Hdb' as <-.
    rewrite reset_getNames.
    rewrite (init_variableDB_seeded st Hst); apply reset_new.
  - unfold finish in H; cbv zeta in H.
    destruct (sort_definitions _) as [imports definitions].
    destruct (variableDB_ st) as [db|] eqn:Edb; [|discriminate].
    injection H as _ <-; cbn [variableDB_] in Hdb'; injection Hdb' as <-.
    rewrite reset_reset; now apply Hst.
  - cbn [variableDB_] in Hdb'.
    replace db' with (snd (Names.getName toLowerCase db name type))
      by congruence.
    rewrite reset_getName; now apply Hst.
  - cbn [variableDB_] in Hdb'.
    replace db' with (snd (Names.getDistinctName db name type))
      by congruence.
    rewrite reset_getDistinctName; now apply Hst.
  - now apply Hst.
  - now apply Hst.
Qed.

Lemma reachable_seeded (st : State) : reachable toLowerCase st -> seeded st.
Proof.
  induction 1 as [|st st' Hstep _ IH].
  - intros db H; discriminate H.
  - now apply (step_seeded st st').
Qed.

Lemma reachable_loaded : reachable toLowerCase loaded.
Proof.
  exact (Relation_Operators.rtn1_refl State (step toLowerCase) loaded).
Qed.

Lemma reachable_step (st st' : State) :
  reachable toLowerCase st -> step toLowerCase st st' ->
  reachable toLowerCase st'.
Proof.
  intros H Hs.
  exact (Relation_Operators.rtn1_trans State (step toLowerCase) loaded st st'
           Hs H).
Qed.

Lemma reachable_init (ws : Workspace) (st : State) :
  reachable toLowerCase st -> reachable toLowerCase (init toLowerCase ws st).
Proof. intros H; apply (reachable_step st); [exact H | constructor]. Qed.

Lemma reachable_define (key def : string) (st : State) :
  reachable toLowerCase st -> reachable toLowerCase (define key def st).
Proof.
  intros H; unfold define.
  destruct (definitions_ st) as [entries|] eqn:E; [|exact H].
  apply (reachable_step st); [exact H | now constructor].
Qed.

Lemma reachable_distinctName (name type : string) (st : State) :
  reachable toLowerCase st ->
  reachable toLowerCase (distinctName name type st).
Proof.
  intros H; unfold distinctName.
  destruct (variableDB_ st) as [db|] eqn:E; [|exact H].
  apply (reachable_step st); [exact H | now constructor].
Qed.

Lemma reachable_finish (code : string) (st : State) :
  reachable toLowerCase st ->
  reachable toLowerCase (match finish code st with
             | Some (_, st') => st'
             | None => loaded
             end).
Proof.
  intros H.
  destruct (finish code st) as [[out st']|] eqn:E; [|apply reachable_loaded].
  apply (reachable_step st); [exact H|].
  now apply (step_finish toLowerCase code out).
Qed.

(** Once a pass has started the registry exists, whatever the generation
    rules do, so that [finish] does not fail at the end of a pass. *)
Lemma step_registry (st st' : State) :
  step toLowerCase st st' ->
  variableDB_ st <> None -> variableDB_ st' <> None.
Proof.
  intros Hstep Hst; destruct Hstep; cbn [variableDB_]; try discriminate;
    try exact Hst.
  - rewrite init_registry; discriminate.
  - unfold finish in H; cbv zeta in H.
    destruct (sort_definitions _) as [imports definitions].
    destruct (variableDB_ st) as [db|]; [|discriminate].
    injection H as _ <-; discriminate.
Qed.

Lemma finish_in_pass (ws : Workspace) (st0 st : State) (code : string) :
  clos_refl_trans_n1 State (step toLowerCase) (init toLowerCase ws st0) st ->
  exists (out : string) (st' : State), finish code st = Some (out, st').
Proof.
  intros H.
  assert (Hdb : variableDB_ st <> None).
  { induction H as [|st1 st2 Hstep _ IH].
    - rewrite init_registry; discriminate.
    - now apply (step_registry st1 st2). }
  destruct (variableDB_ st) as [db|] eqn:E; [|now elim Hdb].
  eexists _, _; apply (finish_eq code st db E).
Qed.

Lemma reset_resolve (requests : list (string * string)) :
  forall db : Names.t,
    Names.reset (snd (resolve toLowerCase db requests)) = Names.reset db.
Proof.
  induction requests as [|[name type] requests IH]; intros db;
    [reflexivity|].
  cbn [resolve].
  pose proof (reset_getName db name type) as H1.
  destruct (Names.getName toLowerCase db name type) as [emitted db1].
  specialize (IH db1).
  destruct (resolve toLowerCase db1 requests) as [others db2].
  cbn [snd] in *; congruence.
Qed.

(** A whole pass from a state whose registry, once reset, is the seed of
    the module: the names are those that the seed gives, first to the
    variables of the workspace and then to the requests; the text is the
    header of the table that [init] leaves, followed by the body; and the
    state that is left holds the seed alone. *)
Lemma run_pass_seeded (ws : Workspace) (requests : list (string * string))
    (code : string) (st : State) :
  seeded st ->
  run_pass toLowerCase ws requests code st =
  Some (fst (resolve toLowerCase
               (snd (getNames toLowerCase (Names.new RESERVED_WORDS_)
                       (getAllVariables ws)))
               requests),
        header (init toLowerCase ws loaded) ++ code,
        {| definitions_ := None;
           functionNames_ := None;
           variableDB_ := Some (Names.new RESERVED_WORDS_) |}).
Proof.
  intros Hst.
  assert (E : init toLowerCase ws st = init toLowerCase ws loaded).
  { apply init_eq; now rewrite (init_variableDB_seeded st Hst). }
  unfold run_pass; cbv zeta; rewrite E, init_registry.
  change (init_variableDB loaded) with (Names.new RESERVED_WORDS_).
  pose proof (reset_resolve requests
                (snd (getNames toLowerCase (Names.new RESERVED_WORDS_)
                        (getAllVariables ws)))) as R.
  destruct (resolve toLowerCase
              (snd (getNames toLowerCase (Names.new RESERVED_WORDS_)
                      (getAllVariables ws)))
              requests) as [emitted db'].
  cbn [fst snd] in *.
  rewrite (finish_eq code _ db') by reflexivity.
  rewrite R, reset_getNames, reset_new.
  reflexivity.
Qed.

(** C8: whatever the earlier passes did, in any state that the module can
    be in, [init] starts a pass from the registry that the reserved words
    alone seed, in which no name is taken: it gives the state that it
    gives in a module just loaded.  So a whole pass (its [init], the names
    that its generation rules ask of the registry, its [finish]) returns
    names and a text, the names that the seed gives and the very names and
    text that the pass returns as the first pass of the module; it leaves
    a registry that is the seed again; and the same pass run once more
    from the state that it left returns the same names and the same text:
    the names taken during a pass are forgotten by the next. *)
Theorem passes_independent (st : State) (ws : Workspace)
    (requests : list (string * string)) (code : string) :
  reachable toLowerCase st ->
  let seed := Names.new RESERVED_WORDS_ in
  let declared := getNames toLowerCase seed (getAllVariables ws) in
  let emitted := fst (resolve toLowerCase (snd declared) requests) in
  let out := header (init toLowerCase ws loaded) ++ code in
  exists st1 : State,
    Names.db_ seed = [] /\
    Names.dbReverse_ seed = [] /\
    init toLowerCase ws st = init toLowerCase ws loaded /\
    variableDB_ (init toLowerCase ws st) = Some (snd declared) /\
    run_pass toLowerCase ws requests code st = Some (emitted, out, st1) /\
    run_pass toLowerCase ws requests code loaded = Some (emitted, out, st1) /\
    variableDB_ st1 = Some seed /\
    run_pass toLowerCase ws requests code st1 = Some (emitted, out, st1).
Proof.
  intros H seed declared emitted out; subst seed declared emitted out.
  pose proof (reachable_seeded st H) as Hst.
  assert (E : init toLowerCase ws st = init toLowerCase ws loaded).
  { apply init_eq; now rewrite (init_variableDB_seeded st Hst). }
  eexists.
  split; [reflexivity|]; split; [reflexivity|]; split; [exact E|].
  split; [rewrite E; apply init_registry|].
  split; [apply (run_pass_seeded ws requests code st Hst)|].
  split; [apply run_pass_seeded; intros db Hdb; discriminate Hdb|].
  split; [reflexivity|].
  apply run_pass_seeded.
  intros db Hdb; cbn [variableDB_] in Hdb; injection Hdb as <-.
  apply reset_new.
Qed.

End PassProperties.

Example init_variables :
  definitions_ (init Sample.toLowerCase Sample.oneBased loaded)
  = Some [("variables", "var x, int2, x;")] /\
  definitions_ (init Sample.toLowerCase Sample.zeroBased loaded) = Some [].
Proof. split; reflexivity. Qed.

(** The sample pass is a run of the module. *)
Lemma reachable_after_first_pass :
  reachable Sample.toLowerCase Sample.after_first_pass.
Proof.
  apply reachable_finish, reachable_define, reachable_define,
    reachable_distinctName, reachable_init, reachable_loaded.
Qed.

(** The theorem at work: a second pass after the sample pass, which had
    taken the names [x], [int2] and [x2]; then the same pass once more. *)
Lemma passes_independent_witness :
  exists st1 : State,
    run_pass Sample.toLowerCase Sample.oneBased
      [("x", Names.NAME_TYPE); ("y", "PROCEDURE")] "a();"
      Sample.after_first_pass
    = Some (["x"; "y"],
            newlines 2 ++ "var x, int2, x;" ++ newlines 3 ++ "a();", st1) /\
    run_pass Sample.toLowerCase Sample.oneBased
      [("x", Names.NAME_TYPE); ("y", "PROCEDURE")] "a();" loaded
    = Some (["x"; "y"],
            newlines 2 ++ "var x, int2, x;" ++ newlines 3 ++ "a();", st1) /\
    variableDB_ st1 = Some (Names.new RESERVED_WORDS_) /\
    run_pass Sample.toLowerCase Sample.oneBased
      [("x", Names.NAME_TYPE); ("y", "PROCEDURE")] "a();" st1
    = Some (["x"; "y"],
            newlines 2 ++ "var x, int2, x;" ++ newlines 3 ++ "a();", st1).
Proof.
  pose proof (passes_independent Sample.toLowerCase Sample.after_first_pass
                Sample.oneBased [("x", Names.NAME_TYPE); ("y", "PROCEDURE")]
                "a();" reachable_after_first_pass) as H.
  cbv zeta in H.
  destruct H as (st1 & _ & _ & _ & _ & H1 & H2 & H3 & H4).
  exists st1; repeat split; assumption.
Defined.

(** The first pass took the name [x2]; the second pass gives [x] to the
    variable [x] again, as the first did. *)
Example second_pass_names :
  option_map Names.dbReverse_ (variableDB_ Sample.during_first_pass)
  = Some ["x2"; "int2"; "x"] /\
  definitions_ (init Sample.toLowerCase Sample.oneBased Sample.after_first_pass)
  = Some [("variables", "var x, int2, x;")].
Proof. split; reflexivity. Qed.

(** ** Failures and unconnected sockets *)

Lemma valueToCode_unconnected (rule : Block -> string * Z) (block : Block)
    (name : string) (order : Z) :
  getInputTargetBlock block name = None ->
  Generator.valueToCode rule block name order = "".
Proof. intros H; unfold Generator.valueToCode; now rewrite H. Qed.

(** C7, as worded, fails on a module that was just loaded: [finish] called
    before any [init] finds no registry to reset, and line 146 throws a
    TypeError. *)
Lemma finish_unstarted_counterexample : ~ no_exception_as_specified.
Proof.
  intros H; destruct (H "a();" loaded) as (out & st' & Hf).
  discriminate Hf.
Qed.

Section Failures.

Variable toLowerCase : string -> string.
Variable bigNumberToString : Z -> string.
Variable rule : Block -> string * Z.

(** C7, as the code has it: from the [init] that starts a pass on,
    whatever happens in between, [finish] returns a text; and for a block
    whose value socket is not connected, [valueToCode(...) || default] is
    the default of the caller, the operand of [getAdjusted] is the default
    index, 0 or 1 by the indexing of the workspace, and [getAdjusted]
    returns a number: this index plus delta, negated on request, when
    delta and the sum are safe integers. *)
Theorem unconnected_socket_default (ws : Workspace) (st0 st : State)
    (code : string) (block : Block) (atId : string) (opt_delta : option Z)
    (opt_negate : bool) (opt_order : option Z) :
  let valueToCode := Generator.valueToCode rule in
  let delta := adjustedDelta block opt_delta in
  let index := if oneBasedIndex (workspace block) then 1%Z else 0%Z in
  clos_refl_trans_n1 State (step toLowerCase) (init toLowerCase ws st0) st ->
  getInputTargetBlock block atId = None ->
  (exists (out : string) (st' : State), finish code st = Some (out, st')) /\
  (forall (order : Z) (default : string),
      or_else (valueToCode block atId order) default = default) /\
  resolvedAt valueToCode block atId opt_delta opt_negate opt_order
  = defaultAtIndex block /\
  (defaultAtIndex block = "0" /\ index = 0%Z \/
   defaultAtIndex block = "1" /\ index = 1%Z) /\
  exists n : number,
    getAdjusted bigNumberToString valueToCode block atId opt_delta
      opt_negate opt_order = VNumber n /\
    n <> NaN /\
    (is_safe delta = true ->
     is_safe (index + delta) = true ->
     n = Num (negate_if opt_negate (index + delta))).
Proof.
  intros valueToCode delta index Hpass Hsocket; subst delta index.
  assert (E : forall order : Z, valueToCode block atId order = "")
    by (intros order; now apply valueToCode_unconnected).
  split; [exact (finish_in_pass toLowerCase ws st0 st code Hpass)|].
  split; [intros order default; rewrite E; now destruct default|].
  pose proof (resolvedAt_default valueToCode block atId opt_delta opt_negate
                opt_order E) as R.
  split; [exact R|].
  split; [unfold defaultAtIndex; destruct (oneBasedIndex _); auto|].
  assert (Hn : isNumber (resolvedAt valueToCode block atId opt_delta
                           opt_negate opt_order) = true).
  { rewrite R; unfold defaultAtIndex.
    destruct (oneBasedIndex (workspace block)); reflexivity. }
  eexists; split.
  { rewrite (getAdjusted_number bigNumberToString valueToCode _ _ _ _ _ Hn).
    reflexivity. }
  cbv zeta; rewrite R; split.
  - assert (P : parseInt (defaultAtIndex block) <> NaN)
      by (unfold defaultAtIndex; destruct (oneBasedIndex _); discriminate).
    destruct opt_negate;
      [apply number_neg_not_NaN|]; now apply number_add_not_NaN.
  - intros Hd Hs; unfold defaultAtIndex.
    destruct (oneBasedIndex (workspace block)).
    + change (parseInt "1") with (safe 1).
      rewrite (number_add_safe 1 _ eq_refl Hd Hs).
      destruct opt_negate; reflexivity.
    + change (parseInt "0") with (safe 0).
      rewrite (number_add_safe 0 _ eq_refl Hd Hs).
      destruct opt_negate; reflexivity.
Qed.

End Failures.

(** The theorem at work: in the first pass over the sample workspace,
    [finish] returns a text; an empty socket under a one-based index counts
    for 1, and 1 - 1 is returned. *)
Lemma unconnected_socket_default_witness :
  (exists (out : string) (st' : State),
      finish "a();" (init Sample.toLowerCase Sample.oneBased loaded)
      = Some (out, st')) /\
  getAdjusted Sample.bigNumberToString Sample.valueToCode
    (Sample.indexed Sample.oneBased None) "AT" None false None
  = VNumber (Num 0).
Proof.
  pose proof (unconnected_socket_default Sample.toLowerCase
                Sample.bigNumberToString Sample.value_rule
                Sample.oneBased loaded
                (init Sample.toLowerCase Sample.oneBased loaded) "a();"
                (Sample.indexed Sample.oneBased None) "AT" None false None)
    as H.
  cbv zeta in H.
  destruct H as (Hf & _ & _ & _ & n & Hg & _ & Hn).
  - exact (Relation_Operators.rtn1_refl State (step Sample.toLowerCase)
             (init Sample.toLowerCase Sample.oneBased loaded)).
  - reflexivity.
  - split; [exact Hf|].
    unfold Sample.valueToCode; rewrite Hg; f_equal; apply Hn; reflexivity.
Defined.

(** * Part III: further properties of the code *)

(** ** quote_ read back *)

Lemma unescape_escape (s : string) : unescape (escape s) = Some s.
Proof.
  induction s as [|c s IH]; [reflexivity|].
  cbn [escape]; unfold escape_char.
  destruct (Ascii.eqb c "\") eqn:E1.
  { apply Ascii.eqb_eq in E1; subst c; cbn; now rewrite IH. }
  destruct (Ascii.eqb c LF) eqn:E2.
  { apply Ascii.eqb_eq in E2; subst c; cbn; now rewrite IH. }
  destruct (Ascii.eqb c "$") eqn:E3.
  { apply Ascii.eqb_eq in E3; subst c; cbn; now rewrite IH. }
  destruct (Ascii.eqb c "'") eqn:E4.
  { apply Ascii.eqb_eq in E4; subst c; cbn; now rewrite IH. }
  cbn [append unescape]; unfold is_special.
  now rewrite E1, E2, E3, E4, IH.
Qed.

Lemma but_last_app (a : string) (c : ascii) :
  but_last (a ++ String c "") = Some (a, c).
Proof.
  induction a as [|x a IH]; [reflexivity|].
  cbn [append but_last]; rewrite IH.
  destruct (a ++ String c "") eqn:E; [|reflexivity].
  destruct a; discriminate E.
Qed.

(** X1: a literal written by [quote_] reads back as the text it was
    written from, whatever the text: between the quotes every backslash,
    line feed, dollar sign and apostrophe of the text has one backslash in
    front of it and nothing else was changed.  Hence two different texts
    never give the same literal. *)
Theorem quote_unquote :
  (forall s : string, unquote (quote_ s) = Some s) /\
  (forall s t : string, quote_ s = quote_ t -> s = t).
Proof.
  assert (R : forall s : string, unquote (quote_ s) = Some s).
  { intros s; unfold quote_; cbv zeta; rewrite quote_passes.
    change ("'" ++ escape s ++ "'") with (String "'" (escape s ++ "'")).
    unfold unquote; rewrite but_last_app.
    rewrite Ascii.eqb_refl; cbn [andb].
    apply unescape_escape. }
  split; [exact R|].
  intros s t E.
  pose proof (R s) as Hs; rewrite E, R in Hs.
  now injection Hs.
Qed.

Lemma length_escape (s : string) :
  String.length (escape s) = String.length s + specials s.
Proof.
  induction s as [|c s IH]; [reflexivity|].
  cbn [escape specials String.length]; rewrite length_append, IH.
  unfold escape_char, is_special.
  destruct (Ascii.eqb c "\"); [cbn; lia|].
  destruct (Ascii.eqb c LF); [cbn; lia|].
  destruct (Ascii.eqb c "$"); [cbn; lia|].
  destruct (Ascii.eqb c "'"); cbn; lia.
Qed.

Lemma specials_le (s : string) : specials s <= String.length s.
Proof.
  induction s as [|c s IH]; [cbn; lia|].
  cbn [specials String.length]; destruct (is_special c); lia.
Qed.

Lemma escape_plain (s : string) : specials s = 0 -> escape s = s.
Proof.
  induction s as [|c s IH]; [reflexivity|].
  cbn [specials escape]; unfold escape_char, is_special.
  destruct (Ascii.eqb c "\"); [discriminate|].
  destruct (Ascii.eqb c LF); [discriminate|].
  destruct (Ascii.eqb c "$"); [discriminate|].
  destruct (Ascii.eqb c "'"); [discriminate|].
  cbn; intros H; now rewrite IH.
Qed.

(** X2: the literal is longer than the text by its two quotes and by one
    backslash for each character that [quote_] escapes: never shorter than
    the text plus two, never longer than twice the text plus two.  It is
    the text between two apostrophes, unchanged, exactly when the text
    holds no backslash, line feed, dollar sign or apostrophe. *)
Theorem quote_length (s : string) :
  String.length (quote_ s) = String.length s + specials s + 2 /\
  String.length s + 2 <= String.length (quote_ s)
                      <= 2 * String.length s + 2 /\
  (quote_ s = "'" ++ s ++ "'" <-> specials s = 0).
Proof.
  assert (L : String.length (quote_ s) = String.length s + specials s + 2).
  { unfold quote_; cbv zeta; rewrite quote_passes.
    rewrite !length_append, length_escape; cbn; lia. }
  split; [exact L|]; split.
  - pose proof (specials_le s); lia.
  - split.
    + intros E; apply (f_equal String.length) in E.
      rewrite L, !length_append in E; cbn in E; lia.
    + intros H; unfold quote_; cbv zeta; rewrite quote_passes.
      now rewrite (escape_plain s H).
Qed.

(** ** getAdjusted at its edges *)

Section AdjustEdges.

Variable bigNumberToString : Z -> string.
Variable valueToCode : Block -> string -> Z -> string.

(** X3: when delta (after the one-based-index adjustment) is zero and the
    operand is not a literal numeral, [getAdjusted] adds nothing to the
    operand: without negation it returns the operand as it is, never in
    parentheses, whatever the required order; with negation it returns the
    operand after a minus sign, in parentheses if and only if the required
    order is numerically greater than or equal to the unary-prefix
    order. *)
Theorem getAdjusted_zero_delta (block : Block) (atId : string)
    (opt_delta : option Z) (opt_negate : bool) (opt_order : option Z) :
  let at_ := resolvedAt valueToCode block atId opt_delta opt_negate
               opt_order in
  adjustedDelta block opt_delta = 0%Z ->
  isNumber at_ = false ->
  getAdjusted bigNumberToString valueToCode block atId opt_delta opt_negate
    opt_order =
  VString
    (if opt_negate then
       parenthesize (ORDER_UNARY_PREFIX <=? requiredOrder opt_order)%Z
         ("-" ++ at_)
     else at_).
Proof.
  intros at_ Hdelta Hnum; subst at_.
  unfold getAdjusted; cbv zeta.
  rewrite Hnum, Hdelta.
  destruct opt_negate; reflexivity.
Qed.

(** X4: a socket that gives no code counts for the first element in either
    indexing.  When delta as the caller gave it (0 when omitted) and delta
    after the one-based-index adjustment are safe integers, [getAdjusted]
    returns the number delta as the caller gave it, negated on request,
    whether the workspace counts from zero or from one. *)
Theorem getAdjusted_unconnected (block : Block) (atId : string)
    (opt_delta : option Z) (opt_negate : bool) (opt_order : option Z) :
  (forall order : Z, valueToCode block atId order = "") ->
  is_safe (givenDelta opt_delta) = true ->
  is_safe (adjustedDelta block opt_delta) = true ->
  getAdjusted bigNumberToString valueToCode block atId opt_delta opt_negate
    opt_order =
  VNumber (Num (negate_if opt_negate (givenDelta opt_delta))).
Proof.
  intros H Hgiven Hdelta.
  pose proof (resolvedAt_default valueToCode block atId opt_delta
                opt_negate opt_order H) as R.
  assert (Hn : isNumber (resolvedAt valueToCode block atId opt_delta
                           opt_negate opt_order) = true).
  { rewrite R; unfold defaultAtIndex.
    destruct (oneBasedIndex (workspace block)); reflexivity. }
  rewrite (getAdjusted_number bigNumberToString valueToCode _ _ _ _ _ Hn), R.
  cbv zeta.
  assert (D : adjustedDelta block opt_delta =
              if oneBasedIndex (workspace block)
              then (givenDelta opt_delta - 1)%Z else givenDelta opt_delta)
    by (unfold adjustedDelta, givenDelta; now destruct opt_delta).
  unfold defaultAtIndex.
  destruct (oneBasedIndex (workspace block)).
  - change (parseInt "1") with (safe 1).
    assert (S1 : (1 + adjustedDelta block opt_delta)%Z = givenDelta opt_delta)
      by (rewrite D; lia).
    rewrite (number_add_safe 1 _ eq_refl Hdelta) by (now rewrite S1).
    rewrite S1; destruct opt_negate; reflexivity.
  - change (parseInt "0") with (safe 0).
    assert (S0 : (0 + adjustedDelta block opt_delta)%Z = givenDelta opt_delta)
      by (rewrite D; lia).
    rewrite (number_add_safe 0 _ eq_refl Hdelta) by (now rewrite S0).
    rewrite S0; destruct opt_negate; reflexivity.
Qed.

(** X5: for a socket that gives code, a one-based workspace only shifts
    delta by one: [getAdjusted] on a block of a one-based workspace is
    [getAdjusted] on the same block in a zero-based workspace with delta
    minus one (an omitted delta counting for 0). *)
Theorem getAdjusted_one_based (block : Block) (atId : string)
    (opt_delta : option Z) (opt_negate : bool) (opt_order : option Z) :
  (forall order : Z,
      valueToCode (with_oneBasedIndex true block) atId order =
      valueToCode (with_oneBasedIndex false block) atId order) ->
  (forall order : Z,
      valueToCode (with_oneBasedIndex false block) atId order <> "") ->
  getAdjusted bigNumberToString valueToCode (with_oneBasedIndex true block)
    atId opt_delta opt_negate opt_order =
  getAdjusted bigNumberToString valueToCode (with_oneBasedIndex false block)
    atId (Some (givenDelta opt_delta - 1)%Z) opt_negate opt_order.
Proof.
  intros Hsame Hcode.
  assert (Hor : forall order default,
             or_else (valueToCode (with_oneBasedIndex false block) atId order)
               default
             = valueToCode (with_oneBasedIndex false block) atId order).
  { intros order default; unfold or_else.
    destruct (String.eqb_spec
                (valueToCode (with_oneBasedIndex false block) atId order) "")
      as [E|E]; [now apply Hcode in E | reflexivity]. }
  assert (R : resolvedAt valueToCode (with_oneBasedIndex true block) atId
                opt_delta opt_negate opt_order =
              resolvedAt valueToCode (with_oneBasedIndex false block) atId
                (Some (givenDelta opt_delta - 1)%Z) opt_negate opt_order).
  { unfold resolvedAt, adjustedDelta; cbn [with_oneBasedIndex workspace
      oneBasedIndex givenDelta]; cbv zeta.
    rewrite !Hsame, !Hor; reflexivity. }
  unfold getAdjusted; cbv zeta; rewrite R.
  unfold adjustedDelta; cbn [with_oneBasedIndex workspace oneBasedIndex
    givenDelta].
  reflexivity.
Qed.

(** X6: on a literal numeral with a nonzero delta, negation gives the
    opposite number: the result with negation is the negative of the
    result without, whatever orders the two calls require.  (The negative
    of a number beyond the safe integers is such a number again.) *)
Theorem getAdjusted_negated_literal (block : Block) (atId : string)
    (opt_delta : option Z) (order order' : option Z) :
  adjustedDelta block opt_delta <> 0%Z ->
  isNumber (resolvedAt valueToCode block atId opt_delta false order) = true ->
  exists n : number,
    n <> NaN /\
    getAdjusted bigNumberToString valueToCode block atId opt_delta false order
    = VNumber n /\
    getAdjusted bigNumberToString valueToCode block atId opt_delta true order'
    = VNumber (number_neg n).
Proof.
  intros Hdelta Hnum.
  assert (R : forall negate ord,
             resolvedAt valueToCode block atId opt_delta negate ord =
             resolvedAt valueToCode block atId opt_delta false order).
  { intros negate ord; unfold resolvedAt; cbv zeta.
    apply Z.eqb_neq in Hdelta; now rewrite Hdelta. }
  destruct (isNumber_parseInt _ Hnum) as (m & k & _ & Hp).
  exists (number_add (safe (Z.quot m (10 ^ Z.of_nat k)))
            (adjustedDelta block opt_delta)).
  split; [apply number_add_not_NaN, safe_not_NaN|]; split.
  - rewrite getAdjusted_number by exact Hnum.
    cbv zeta; now rewrite Hp.
  - rewrite getAdjusted_number by (now rewrite R).
    cbv zeta; now rewrite R, Hp.
Qed.

End AdjustEdges.

(** The theorem at work: a variable in the socket, no delta, negation,
    under a multiplication; then no negation. *)
Lemma getAdjusted_zero_delta_witness :
  getAdjusted Sample.bigNumberToString Sample.valueToCode
    (Sample.indexed Sample.zeroBased (Some (Sample.plugged "variables_get")))
    "AT" None true (Some ORDER_MULTIPLICATIVE)
  = VString "(-x)".
Proof.
  apply (getAdjusted_zero_delta Sample.bigNumberToString
           Sample.valueToCode
           (Sample.indexed Sample.zeroBased
              (Some (Sample.plugged "variables_get")))
           "AT" None true (Some ORDER_MULTIPLICATIVE)); reflexivity.
Defined.

(** The theorem at work: an empty socket in a one-based workspace, with
    delta 3 and negation. *)
Lemma getAdjusted_unconnected_witness :
  getAdjusted Sample.bigNumberToString Sample.valueToCode
    (Sample.indexed Sample.oneBased None) "AT" (Some 3%Z) true None
  = VNumber (Num (-3)).
Proof.
  apply (getAdjusted_unconnected Sample.bigNumberToString
           Sample.valueToCode
           (Sample.indexed Sample.oneBased None) "AT" (Some 3%Z) true None);
    reflexivity.
Defined.

(** The theorem at work: a variable in the socket; no delta on a one-based
    index is delta -1 on a zero-based one. *)
Lemma getAdjusted_one_based_witness :
  getAdjusted Sample.bigNumberToString Sample.valueToCode
    (with_oneBasedIndex true
       (Sample.indexed Sample.zeroBased
          (Some (Sample.plugged "variables_get"))))
    "AT" None false None
  = getAdjusted Sample.bigNumberToString Sample.valueToCode
      (with_oneBasedIndex false
         (Sample.indexed Sample.zeroBased
            (Some (Sample.plugged "variables_get"))))
      "AT" (Some (-1)%Z) false None.
Proof.
  apply (getAdjusted_one_based Sample.bigNumberToString
           Sample.valueToCode
           (Sample.indexed Sample.zeroBased
              (Some (Sample.plugged "variables_get")))
           "AT" None false None).
  - reflexivity.
  - intros order; unfold Sample.valueToCode, Generator.valueToCode.
    cbn [getInputTargetBlock with_oneBasedIndex inputList Sample.indexed
           find input_name String.eqb Ascii.eqb Bool.eqb targetBlock].
    cbn.
    destruct (_ && _); discriminate.
Defined.

(** The theorem at work: the literal 1.5 with delta 1 gives 2, and -2 with
    negation. *)
Lemma getAdjusted_negated_literal_witness :
  getAdjusted Sample.bigNumberToString Sample.valueToCode
    (Sample.indexed Sample.zeroBased (Some (Sample.plugged "math_number")))
    "AT" (Some 1%Z) false None
  = VNumber (Num 2) /\
  getAdjusted Sample.bigNumberToString Sample.valueToCode
    (Sample.indexed Sample.zeroBased (Some (Sample.plugged "math_number")))
    "AT" (Some 1%Z) true (Some ORDER_ADDITIVE)
  = VNumber (Num (-2)).
Proof.
  destruct (getAdjusted_negated_literal Sample.bigNumberToString
              Sample.valueToCode
              (Sample.indexed Sample.zeroBased
                 (Some (Sample.plugged "math_number")))
              "AT" (Some 1%Z) None (Some ORDER_ADDITIVE))
    as (n & _ & H1 & H2).
  - vm_compute; discriminate.
  - reflexivity.
  - assert (E : getAdjusted Sample.bigNumberToString Sample.valueToCode
                  (Sample.indexed Sample.zeroBased
                     (Some (Sample.plugged "math_number")))
                  "AT" (Some 1%Z) false None
                = VNumber (Num 2)) by reflexivity.
    rewrite E in H1; injection H1 as <-.
    split; [exact E | exact H2].
Defined.

(** ** Comments and chains *)

Section ScrubEdges.

Variable wrap : string -> Z -> string.
Variable prefixLines : string -> string -> string.
Variable allNestedComments : Block -> string.
Variable rule : Block -> string.

Lemma concat_all_app (l1 l2 : list string) :
  concat_all (l1 ++ l2) = concat_all l1 ++ concat_all l2.
Proof.
  induction l1 as [|x l1 IH]; [reflexivity|].
  cbn [app concat_all fold_right] in *; unfold concat_all in IH.
  now rewrite IH, append_assoc.
Qed.

Lemma argumentComments_lines (inputs : list (Input Block)) :
  forall commentCode : string,
    argumentComments prefixLines allNestedComments commentCode inputs =
    commentCode
    ++ concat_all (argument_lines prefixLines allNestedComments inputs).
Proof.
  unfold argumentComments, argument_lines, value_children.
  induction inputs as [|input inputs IH]; intros acc.
  - cbn; now rewrite append_nil_r.
  - cbn [fold_left flat_map]; rewrite IH.
    destruct (inputType_eqb (input_type input) INPUT_VALUE);
      [|reflexivity].
    destruct (targetBlock input) as [childBlock|]; [|reflexivity].
    cbn [app map filter].
    destruct (String.eqb (allNestedComments childBlock) "");
      cbn [negb map]; [reflexivity|].
    change (concat_all (?x :: ?l)) with (x ++ concat_all l).
    now rewrite append_assoc.
Qed.

(** X7: the comment text that [scrub_] puts in front of the code of a
    block.  A block plugged into another one gets none.  Any other block
    gets the lines of its own comment first, then, in the order of its
    inputs, the lines of the comments nested in the blocks plugged into its
    value inputs; statement inputs, dummy inputs, empty value inputs and
    arguments without comment add nothing. *)
Theorem commentCode_lines (block : Block) :
  commentCode wrap prefixLines allNestedComments block =
  match outputConnection block with
  | Some true => ""
  | _ =>
      own_lines wrap prefixLines block
      ++ concat_all
           (argument_lines prefixLines allNestedComments (inputList block))
  end.
Proof.
  unfold commentCode, own_lines; cbv zeta.
  destruct (outputConnection block) as [[|]|]; try reflexivity;
    apply argumentComments_lines.
Qed.

Lemma chain_suffix (before : list Block) :
  forall (block b : Block) (after : list Block),
    chain block = (before ++ b :: after)%list -> chain b = b :: after.
Proof.
  induction before as [|x before IH]; intros block b after H.
  - destruct block as [t w c p o i next]; cbn [chain nextBlock app] in H.
    injection H as <- <-; reflexivity.
  - destruct block as [t w c p o i [next|]]; cbn [chain nextBlock app] in H;
      injection H as _ H.
    + now apply (IH next).
    + destruct before; discriminate H.
Qed.

(** X8: the text generated from a statement block is made of its whole
    chain, whatever its length: for each block in the order of the
    connections, the comment text of the block then its code, and nothing
    else.  So the text generated from any block further down the chain is
    the end of the text generated from the first one, after the text of
    the blocks before it. *)
Theorem blockToCode_whole_chain (block : Block) :
  Generator.blockToCode wrap prefixLines allNestedComments rule (Some block)
  = concat_all
      (map (fun b =>
              commentCode wrap prefixLines allNestedComments b ++ rule b)
         (chain block)) /\
  (forall (before after : list Block) (b : Block),
      chain block = (before ++ b :: after)%list ->
      Generator.blockToCode wrap prefixLines allNestedComments rule
        (Some block)
      = concat_all
          (map (fun b =>
                  commentCode wrap prefixLines allNestedComments b ++ rule b)
             before)
        ++ Generator.blockToCode wrap prefixLines allNestedComments rule
             (Some b)).
Proof.
  assert (E : forall b : Block,
             Generator.blockToCode wrap prefixLines allNestedComments rule
               (Some b)
             = concat_all
                 (map (fun b =>
                         commentCode wrap prefixLines allNestedComments b
                         ++ rule b)
                    (chain b))).
  { intros b; apply chainToCode_chain. }
  split; [apply E|].
  intros before after b H.
  rewrite (E block), (E b), H, (chain_suffix before block b after H).
  now rewrite map_app, concat_all_app.
Qed.

End ScrubEdges.

(** ** Passes at their edges *)

Section PassEdges.

Variable toLowerCase : string -> string.

Lemma reset_init_variableDB (st : State) :
  Names.reset (init_variableDB st) = init_variableDB st.
Proof. unfold init_variableDB; destruct (variableDB_ st); reflexivity. Qed.

(** X9: the last [init] wins.  Whatever the state, an [init] that follows
    another [init] (no [finish] in between) gives the state that it gives
    alone: the tables and the names of the pass that was started first are
    dropped, and [init] twice on a workspace is [init] once. *)
Theorem init_last_wins (ws1 ws2 : Workspace) (st : State) :
  init toLowerCase ws2 (init toLowerCase ws1 st) = init toLowerCase ws2 st /\
  init toLowerCase ws1 (init toLowerCase ws1 st) = init toLowerCase ws1 st.
Proof.
  assert (E : forall ws ws' : Workspace,
             init toLowerCase ws' (init toLowerCase ws st)
             = init toLowerCase ws' st).
  { intros ws ws'; apply init_eq.
    unfold init_variableDB at 1; rewrite init_registry.
    now rewrite reset_getNames, reset_init_variableDB. }
  split; apply E.
Qed.

(** X10: [finish] fails in one case only, when no registry was ever
    created; from the [init] that starts a pass on, whatever the generation
    rules ask of the registry and record in the tables, and whatever other
    [init] and [finish] come in between, [finish] returns a text. *)
Theorem finish_fails_only_unstarted :
  (forall (code : string) (st : State),
      finish code st = None <-> variableDB_ st = None) /\
  (forall (ws : Workspace) (st0 st : State) (code : string),
      clos_refl_trans_n1 State (step toLowerCase) (init toLowerCase ws st0)
        st ->
      finish code st <> None).
Proof.
  split.
  - intros code st; split.
    + intros H; destruct (variableDB_ st) as [db|] eqn:E; [|reflexivity].
      rewrite (finish_eq code st db E) in H; discriminate H.
    + intros H; unfold finish; cbv zeta.
      destruct (sort_definitions _); now rewrite H.
  - intros ws st0 st code H.
    destruct (finish_in_pass toLowerCase ws st0 st code H) as (out & st' & ->).
    discriminate.
Qed.

End PassEdges.

(** X11: [finish] leaves nothing of the pass behind: neither table, and a
    registry without any name.  A second [finish] without an [init] in
    between therefore returns three line feeds followed by its body, and
    leaves the state as it found it. *)
Theorem finish_twice (code1 code2 : string) (st : State) (db : Names.t) :
  variableDB_ st = Some db ->
  exists (out : string) (st1 : State) (db1 : Names.t),
    finish code1 st = Some (out, st1) /\
    definitions_ st1 = None /\
    functionNames_ st1 = None /\
    variableDB_ st1 = Some db1 /\
    Names.db_ db1 = [] /\
    Names.dbReverse_ db1 = [] /\
    finish code2 st1 = Some (newlines 3 ++ code2, st1).
Proof.
  intros H.
  eexists _, _, (Names.reset db).
  split; [apply (finish_eq code1 st db H)|].
  repeat split.
Qed.

(** The theorem at work: two [finish] after the sample pass. *)
Lemma finish_twice_witness :
  exists (out : string) (st1 : State) (db1 : Names.t),
    finish "a();" Sample.during_first_pass = Some (out, st1) /\
    definitions_ st1 = None /\
    functionNames_ st1 = None /\
    variableDB_ st1 = Some db1 /\
    Names.db_ db1 = [] /\
    Names.dbReverse_ db1 = [] /\
    finish "b();" st1 = Some (newlines 3 ++ "b();", st1).
Proof.
  apply (finish_twice "a();" "b();" Sample.during_first_pass
           (snd (Names.getDistinctName
                   (snd (getNames Sample.toLowerCase (Names.new RESERVED_WORDS_)
                           ["x"; "int"; "X"]))
                   "x" Names.NAME_TYPE))).
  reflexivity.
Defined.

Section Tables.

Variable toLowerCase : string -> string.

Lemma step_tables (st st' : State) :
  step toLowerCase st st' ->
  ((definitions_ st = None <-> functionNames_ st = None) /\
   (definitions_ st <> None -> variableDB_ st <> None)) ->
  (definitions_ st' = None <-> functionNames_ st' = None) /\
  (definitions_ st' <> None -> variableDB_ st' <> None).
Proof.
  intros Hstep [Hiff Hdb]; destruct Hstep; cbn [definitions_ functionNames_
    variableDB_].
  - unfold init; cbv zeta.
    destruct (getAllVariables workspace0);
      [|destruct (getNames toLowerCase _ _)];
      cbn [definitions_ functionNames_ variableDB_];
      repeat split; intros; discriminate.
  - unfold finish in H; cbv zeta in H.
    destruct (sort_definitions _) as [imports definitions].
    destruct (variableDB_ st) as [db|]; [|discriminate].
    injection H as _ <-; cbn [definitions_ functionNames_ variableDB_].
    repeat split; intros; try discriminate; now elim H.
  - split; [exact Hiff | intros; discriminate].
  - split; [exact Hiff | intros; discriminate].
  - split.
    + split; intros E; [discriminate|].
      apply Hiff in E; congruence.
    + intros _; apply Hdb; congruence.
  - split.
    + split; intros E; [|discriminate].
      apply Hiff in E; congruence.
    + exact Hdb.
Qed.

(** X12: in every state that the module can be in, the two tables exist
    together or not at all (from [init] to [finish], and never outside a
    pass), and whenever they exist the registry exists. *)
Theorem tables_together (st : State) :
  reachable toLowerCase st ->
  (definitions_ st = None <-> functionNames_ st = None) /\
  (definitions_ st <> None -> variableDB_ st <> None).
Proof.
  induction 1 as [|st st' Hstep _ IH].
  - cbn; split; [tauto | intros H; now elim H].
  - now apply (step_tables st st').
Qed.

End Tables.

(** The theorem at work: the state in the middle of the sample pass. *)
Lemma tables_together_witness :
  (definitions_ Sample.during_first_pass = None
   <-> functionNames_ Sample.during_first_pass = None) /\
  (definitions_ Sample.during_first_pass <> None ->
   variableDB_ Sample.during_first_pass <> None).
Proof.
  apply (tables_together Sample.toLowerCase Sample.during_first_pass).
  apply reachable_define, reachable_define, reachable_distinctName,
    reachable_init, reachable_loaded.
Defined.

(** ** The header of one-line entries *)

Lemma runs_le_not_nl (k cur : nat) (s : string) :
  starts_with_nl s = false ->
  runs_le k cur s = true ->
  cur <= k /\ runs_le k 0 s = true.
Proof.
  destruct s as [|c s]; cbn [starts_with_nl runs_le].
  - intros _ H; apply Nat.leb_le in H; split; [exact H | reflexivity].
  - intros -> H; apply andb_true_iff in H; destruct H as [H1 H2].
    apply Nat.leb_le in H1; split; [exact H1|].
    now rewrite H2.
Qed.

(** [collapse] changes nothing in a text whose runs of line feeds have at
    most two of them. *)
Lemma collapse_from_fixed (s : string) :
  (runs_le 2 0 s = true -> collapse_from false s = s) /\
  (runs_le 2 2 s = true -> collapse_from true s = s) /\
  (runs_le 2 1 s = true -> starts_with_nl s = true ->
   nl ++ collapse_from true s = s).
Proof.
  induction s as [|c s (IHf & IHt & IHg)].
  - repeat split; try reflexivity; discriminate.
  - cbn [collapse_from runs_le starts_with_nl].
    destruct (is_nl c) eqn:Ec.
    + assert (Hc : c = LF) by now apply Ascii.eqb_eq.
      subst c; repeat split.
      * intros H.
        destruct (starts_with_nl s) eqn:Es.
        -- change (nl ++ nl ++ collapse_from true s)
             with (String LF (nl ++ collapse_from true s)).
           now rewrite (IHg H eq_refl).
        -- destruct (runs_le_not_nl 2 1 s Es H) as [_ H0].
           now rewrite (IHf H0).
      * intros H; apply runs_le_cur in H; lia.
      * intros H _.
        change (nl ++ collapse_from true s)
          with (String LF (collapse_from true s)).
        now rewrite (IHt H).
    + repeat split.
      * intros H; now rewrite (IHf H).
      * intros H; now rewrite (IHf H).
      * intros _ H; discriminate H.
Qed.

Lemma collapse_fixed (s : string) : runs_le 2 0 s = true -> collapse s = s.
Proof. apply collapse_from_fixed. Qed.

Lemma strip_fixed (s : string) : ends_nl s = false -> strip_trailing s = s.
Proof.
  induction s as [|c s IH]; [reflexivity|].
  intros H; cbn [strip_trailing].
  destruct (all_nl (String c s)) eqn:E.
  - exfalso; clear IH; revert c H E.
    induction s as [|d s IHs]; intros c H E; cbn [ends_nl all_nl] in *.
    + rewrite andb_true_r in E; congruence.
    + apply andb_true_iff in E; destruct E as [_ E].
      now apply (IHs d).
  - destruct s as [|d s]; [reflexivity|].
    rewrite ends_nl_cons in H by discriminate.
    now rewrite (IH H).
Qed.

Lemma strip_app_newlines (n : nat) (s : string) :
  strip_trailing (s ++ newlines n) = strip_trailing s.
Proof.
  assert (A : forall t, all_nl (t ++ newlines n) = all_nl t).
  { induction t as [|c t IHt]; cbn [append all_nl].
    - induction n as [|n IHn]; [reflexivity | exact IHn].
    - now rewrite IHt. }
  induction s as [|c s IH].
  - cbn [append]; apply all_nl_strip; exact (A "").
  - change (String c s ++ newlines n) with (String c (s ++ newlines n)).
    cbn [strip_trailing].
    change (String c (s ++ newlines n)) with (String c s ++ newlines n).
    now rewrite A, IH.
Qed.

Lemma ends_nl_app (a b : string) : b <> "" -> ends_nl (a ++ b) = ends_nl b.
Proof.
  intros Hb; induction a as [|c a IH]; [reflexivity|].
  change (String c a ++ b) with (String c (a ++ b)).
  rewrite ends_nl_cons; [exact IH|].
  destruct a; [exact Hb | discriminate].
Qed.

Lemma one_line_not_empty (x : string) : one_line x = true -> x <> "".
Proof. intros H ->; discriminate H. Qed.

Lemma one_line_ends (x : string) : one_line x = true -> ends_nl x = false.
Proof.
  unfold one_line; intros H; apply andb_true_iff in H; destruct H as [_ H].
  induction x as [|c x IH]; [reflexivity|].
  cbn [no_nl] in H; apply andb_true_iff in H; destruct H as [Hc Hx].
  destruct x as [|d x]; [cbn; now destruct (is_nl c)|].
  rewrite ends_nl_cons by discriminate; now apply IH.
Qed.

(** A one-line text ends the run of line feeds before it and starts none. *)
Lemma one_line_runs (k cur : nat) (x t : string) :
  one_line x = true ->
  runs_le k cur (x ++ t) = (cur <=? k)%nat && runs_le k 0 t.
Proof.
  unfold one_line; intros H; apply andb_true_iff in H.
  destruct H as [Hne H].
  destruct x as [|c x]; [discriminate|]; clear Hne.
  revert c cur H; induction x as [|d x IH]; intros c cur H;
    cbn [no_nl] in H; apply andb_true_iff in H; destruct H as [Hc Hx];
    apply negb_true_iff in Hc.
  - cbn [append runs_le]; now rewrite Hc.
  - change (String c (String d x) ++ t) with (String c (String d x ++ t)).
    cbn [runs_le]; rewrite Hc, (IH d 0 Hx); cbn [Nat.leb]; reflexivity.
Qed.

Lemma join_one_line_ends (sep : string) (l : list string) :
  Forall (fun x => one_line x = true) l ->
  ends_nl (join sep l) = false.
Proof.
  induction 1 as [|x l Hx Hl IH]; [reflexivity|].
  destruct l as [|y l]; [now apply one_line_ends|].
  change (join sep (x :: y :: l)) with (x ++ sep ++ join sep (y :: l)).
  rewrite <- append_assoc.
  rewrite ends_nl_app; [exact IH|].
  inversion Hl as [|? ? Hy _]; subst.
  destruct l as [|z l]; [now apply one_line_not_empty|].
  change (join sep (y :: z :: l)) with (y ++ sep ++ join sep (z :: l)).
  apply one_line_not_empty in Hy.
  destruct y; [now elim Hy | discriminate].
Qed.

Lemma join_one_line_runs (n : nat) (l : list string) :
  n <= 2 ->
  Forall (fun x => one_line x = true) l ->
  forall (t : string) (cur : nat),
    cur <= 2 ->
    (l = [] -> runs_le 2 cur t = true) ->
    (l <> [] -> runs_le 2 0 t = true) ->
    runs_le 2 cur (join (newlines n) l ++ t) = true.
Proof.
  intros Hn; induction 1 as [|x l Hx Hl IH]; intros t cur Hcur H0 H1.
  - now apply H0.
  - destruct l as [|y l].
    + cbn [join]; rewrite (one_line_runs 2 cur x t Hx).
      apply andb_true_iff; split; [now apply Nat.leb_le|].
      apply H1; discriminate.
    + change (join (newlines n) (x :: y :: l))
        with (x ++ newlines n ++ join (newlines n) (y :: l)).
      rewrite !append_assoc, (one_line_runs 2 cur x _ Hx).
      apply andb_true_iff; split; [now apply Nat.leb_le|].
      rewrite runs_le_newlines, Nat.add_0_r.
      apply IH; [exact Hn | discriminate | intros _; apply H1; discriminate].
Qed.

(** X13: when every entry of the definition table is one line (not empty,
    no line feed), as the imports, the [variables] entry and one-line
    definitions are, the header that [finish] writes is made of the
    entries as they are: the imports on consecutive lines, one blank line,
    the other definitions with one blank line between two of them, then
    three line feeds.  Without other definitions the imports are followed
    by the three line feeds; without imports the header starts with a
    blank line. *)
Theorem header_layout (st : State) :
  Forall (fun entry => one_line (snd entry) = true) (table st) ->
  header st = layout (import_entries (table st)) (other_entries (table st)).
Proof.
  intros H.
  assert (Hi : Forall (fun x => one_line x = true)
                 (import_entries (table st))).
  { unfold import_entries; apply Forall_forall; intros x Hx.
    apply filter_In in Hx; destruct Hx as [Hx _].
    apply in_map_iff in Hx; destruct Hx as (e & <- & He).
    now apply (proj1 (Forall_forall _ _) H e). }
  assert (Ho : Forall (fun x => one_line x = true)
                 (other_entries (table st))).
  { unfold other_entries; apply Forall_forall; intros x Hx.
    apply filter_In in Hx; destruct Hx as [Hx _].
    apply in_map_iff in Hx; destruct Hx as (e & <- & He).
    now apply (proj1 (Forall_forall _ _) H e). }
  unfold header, layout.
  generalize dependent (other_entries (table st)).
  generalize dependent (import_entries (table st)).
  clear H; intros imports Hi others Ho.
  assert (R : runs_le 2 0 (allDefs imports others) = true).
  { unfold allDefs.
    change (nl ++ nl ++ join (nl ++ nl) others)
      with (newlines 2 ++ join (newlines 2) others).
    change nl with (newlines 1) at 1.
    apply (join_one_line_runs 1 imports); [lia | exact Hi | lia | | ];
      intros _; rewrite runs_le_newlines;
      rewrite <- (append_nil_r (join (newlines 2) others));
      apply (join_one_line_runs 2 others); try lia; try exact Ho;
      intros; reflexivity. }
  rewrite (collapse_fixed _ R), replace_trailing_strip.
  f_equal.
  destruct others as [|d others].
  - unfold allDefs; cbn [join].
    change (nl ++ nl ++ "") with (newlines 2).
    rewrite strip_app_newlines.
    apply strip_fixed, join_one_line_ends, Hi.
  - apply strip_fixed.
    unfold allDefs; rewrite <- !append_assoc.
    rewrite ends_nl_app.
    + now apply join_one_line_ends.
    + inversion Ho as [|? ? Hd _]; subst.
      apply one_line_not_empty in Hd.
      destruct others as [|e others]; [exact Hd|].
      change (join (nl ++ nl) (d :: e :: others))
        with (d ++ (nl ++ nl) ++ join (nl ++ nl) (e :: others)).
      destruct d; [now elim Hd | discriminate].
Qed.

(** The theorem at work: a table with the variables and one import. *)
Lemma header_layout_witness :
  header (define "import_math" "import math;"
            (init Sample.toLowerCase Sample.oneBased loaded))
  = "import math;" ++ newlines 2 ++ "var x, int2, x;" ++ newlines 3.
Proof.
  apply (header_layout
           (define "import_math" "import math;"
              (init Sample.toLowerCase Sample.oneBased loaded))).
  vm_compute; repeat constructor.
Defined.

(** ** The names that init declares *)

Section DeclaredNames.

Variable toLowerCase : string -> string.

Lemma mem_cons (x y : string) (l : list string) :
  mem x (y :: l) = String.eqb x y || mem x l.
Proof. reflexivity. Qed.

Lemma mem_false (x : string) (l : list string) : mem x l = false -> ~ In x l.
Proof.
  intros H Hin.
  assert (E : mem x l = true).
  { apply existsb_exists; exists x; split; [exact Hin|].
    apply String.eqb_refl. }
  congruence.
Qed.

Lemma prefix_for_tidy (db : Names.t) (type : string) :
  Names.variablePrefix_ db = "" -> Names.prefix_for db type = "".
Proof.
  intros H; unfold Names.prefix_for; rewrite H.
  now destruct (String.eqb type Names.NAME_TYPE).
Qed.

(** What [getName] keeps and gives in a tidy registry: the registry stays
    tidy with the same reserved words, the name given is on file under the
    key of the request, and the names on file stay. *)
Lemma getName_tidy (db : Names.t) (name type : string) :
  tidy db ->
  tidy (snd (Names.getName toLowerCase db name type)) /\
  Names.reservedDict_ (snd (Names.getName toLowerCase db name type))
  = Names.reservedDict_ db /\
  lookup (registry_key toLowerCase name type)
    (Names.db_ (snd (Names.getName toLowerCase db name type)))
  = Some (fst (Names.getName toLowerCase db name type)) /\
  (forall k v : string,
      lookup k (Names.db_ db) = Some v ->
      lookup k (Names.db_ (snd (Names.getName toLowerCase db name type)))
      = Some v).
Proof.
  intros (Hp & Hfile & Hinj).
  unfold Names.getName; cbv zeta.
  fold (registry_key toLowerCase name type).
  rewrite (prefix_for_tidy db type Hp).
  destruct (lookup (registry_key toLowerCase name type) (Names.db_ db))
    as [known|] eqn:E.
  - cbn [fst snd append].
    split; [exact (conj Hp (conj Hfile Hinj))|].
    split; [reflexivity|]; split; [exact E | auto].
  - unfold Names.getDistinctName; cbv zeta.
    rewrite (prefix_for_tidy db type Hp).
    cbn [fst snd append String.length Names.substr Names.db_
           Names.reservedDict_ Names.dbReverse_ Names.variablePrefix_].
    pose proof (search_free db (Names.safeName_ name)) as Hfree.
    set (fresh := Names.safeName_ name
                  ++ Names.suffix
                       (Names.search
                          (length (Names.dbReverse_ db)
                           + length (Names.reservedDict_ db))
                          db (Names.safeName_ name) 0)) in *.
    unfold Names.taken in Hfree; apply orb_false_iff in Hfree.
    destruct Hfree as [Hused Hres].
    assert (Hstay : forall k v,
               lookup k (Names.db_ db) = Some v ->
               lookup k
                 (assign (registry_key toLowerCase name type) fresh
                    (Names.db_ db))
               = Some v).
    { intros k v H; rewrite lookup_assign.
      destruct (String.eqb_spec k (registry_key toLowerCase name type))
        as [->|_]; [congruence | exact H]. }
    split; [|split; [reflexivity|split; [|exact Hstay]]].
    + unfold tidy; cbn [Names.db_ Names.reservedDict_ Names.dbReverse_
                          Names.variablePrefix_].
      split; [exact Hp|]; split.
      * intros k v H; rewrite lookup_assign in H; rewrite mem_cons.
        destruct (String.eqb k (registry_key toLowerCase name type)).
        -- injection H as <-; rewrite String.eqb_refl; now split.
        -- destruct (Hfile k v H) as [H1 H2]; rewrite H1, orb_true_r.
           now split.
      * intros k1 k2 v H1 H2; rewrite lookup_assign in H1, H2.
        destruct (String.eqb_spec k1 (registry_key toLowerCase name type))
          as [->|N1],
            (String.eqb_spec k2 (registry_key toLowerCase name type))
          as [->|N2].
        -- reflexivity.
        -- injection H1 as <-.
           destruct (Hfile k2 fresh H2) as [H _]; congruence.
        -- injection H2 as <-.
           destruct (Hfile k1 fresh H1) as [H _]; congruence.
        -- now apply (Hinj k1 k2 v).
    + rewrite lookup_assign; now rewrite String.eqb_refl.
Qed.

Lemma getNames_tidy (variables : list string) :
  forall db : Names.t,
    tidy db ->
    tidy (snd (getNames toLowerCase db variables)) /\
    Names.reservedDict_ (snd (getNames toLowerCase db variables))
    = Names.reservedDict_ db /\
    Forall2
      (fun name emitted =>
         lookup (registry_key toLowerCase name Names.NAME_TYPE)
           (Names.db_ (snd (getNames toLowerCase db variables))) = Some emitted)
      variables (fst (getNames toLowerCase db variables)) /\
    (forall k v : string,
        lookup k (Names.db_ db) = Some v ->
        lookup k (Names.db_ (snd (getNames toLowerCase db variables)))
        = Some v).
Proof.
  induction variables as [|name variables IH]; intros db Hdb.
  - cbn [getNames fst snd].
    split; [exact Hdb|]; split; [reflexivity|]; split; [constructor | auto].
  - cbn [getNames].
    destruct (getName_tidy db name Names.NAME_TYPE Hdb)
      as (T1 & R1 & L1 & S1).
    destruct (Names.getName toLowerCase db name Names.NAME_TYPE)
      as [defvar db1].
    cbn [fst snd] in *.
    destruct (IH db1 T1) as (T2 & R2 & F2 & S2).
    destruct (getNames toLowerCase db1 variables) as [defvars db2].
    cbn [fst snd] in *.
    split; [exact T2|]; split; [congruence|]; split.
    + constructor; [now apply S2 | exact F2].
    + intros k v H; now apply S2, S1.
Qed.

Lemma new_tidy (words : string) : tidy (Names.new words).
Proof.
  unfold tidy; cbn [Names.new Names.reset Names.db_ Names.variablePrefix_
                      Names.dbReverse_ Names.reservedDict_].
  split; [reflexivity|]; split; intros; discriminate.
Qed.

Lemma Forall2_In_r {A B : Type} (P : A -> B -> Prop) (l : list A)
    (l' : list B) :
  Forall2 P l l' -> forall b, In b l' -> exists a, In a l /\ P a b.
Proof.
  induction 1 as [|x y l l' Hxy _ IH]; intros b Hin; [now elim Hin|].
  destruct Hin as [<-|Hin].
  - exists x; split; [now left | exact Hxy].
  - destruct (IH b Hin) as (a & Ha & Hab).
    exists a; split; [now right | exact Hab].
Qed.

Lemma getNames_not_reserved (db : Names.t) (variables : list string) :
  tidy db ->
  forall emitted : string,
    In emitted (fst (getNames toLowerCase db variables)) ->
    ~ In emitted (Names.reservedDict_ db).
Proof.
  intros Hdb emitted Hin.
  destruct (getNames_tidy variables db Hdb) as ((_ & Hfile & _) & R & F & _).
  destruct (Forall2_In_r _ _ _ F emitted Hin) as (name & _ & Hname).
  apply Hfile in Hname; destruct Hname as [_ Hname].
  rewrite R in Hname; now apply mem_false.
Qed.

Lemma reserved_words_of_new :
  Names.reservedDict_ (Names.new RESERVED_WORDS_)
  = split "," RESERVED_WORDS_.
Proof. reflexivity. Qed.

(** X14: in every state that the module can be in, no name that [init]
    lists in the [variables] entry is a reserved word of the generator: a
    variable named as a reserved word is declared under another name. *)
Theorem init_names_not_reserved (ws : Workspace) (st : State)
    (emitted : string) :
  reachable toLowerCase st ->
  In emitted
    (fst (getNames toLowerCase (init_variableDB st) (getAllVariables ws))) ->
  mem emitted (split "," RESERVED_WORDS_) = false.
Proof.
  intros Hst Hin.
  rewrite (init_variableDB_seeded st (reachable_seeded toLowerCase st Hst))
    in Hin.
  destruct (mem emitted (split "," RESERVED_WORDS_)) eqn:E; [|reflexivity].
  exfalso; apply mem_In in E; revert E.
  rewrite <- reserved_words_of_new.
  exact (getNames_not_reserved (Names.new RESERVED_WORDS_)
           (getAllVariables ws) (new_tidy RESERVED_WORDS_) emitted Hin).
Qed.

End DeclaredNames.

(** The theorem at work: the variable [int] of the sample workspace is
    declared as [int2], after an earlier pass. *)
Lemma init_names_not_reserved_witness :
  mem "int2" (split "," RESERVED_WORDS_) = false.
Proof.
  apply (init_names_not_reserved Sample.toLowerCase Sample.oneBased
           Sample.after_first_pass "int2").
  - apply reachable_finish, reachable_define, reachable_define,
      reachable_distinctName, reachable_init, reachable_loaded.
  - vm_compute; auto.
Defined.

(** ** The two kinds of result of getAdjusted *)

(** X16: [getAdjusted] returns a number exactly when the operand that it
    resolved is a literal numeral, and this number is never NaN; in every
    other case it returns a text. *)
Theorem getAdjusted_kinds (bigNumberToString : Z -> string)
    (valueToCode : Block -> string -> Z -> string)
    (block : Block) (atId : string) (opt_delta : option Z)
    (opt_negate : bool) (opt_order : option Z) :
  let at_ := resolvedAt valueToCode block atId opt_delta opt_negate
               opt_order in
  let result := getAdjusted bigNumberToString valueToCode block atId
                  opt_delta opt_negate opt_order in
  (isNumber at_ = true <-> exists n : number, result = VNumber n) /\
  (isNumber at_ = false <-> exists s : string, result = VString s) /\
  result <> VNumber NaN.
Proof.
  intros at_ result; subst at_ result.
  destruct (isNumber (resolvedAt valueToCode block atId opt_delta opt_negate
                        opt_order)) eqn:Hnum.
  - destruct (getAdjusted_folded bigNumberToString valueToCode block atId
                opt_delta opt_negate opt_order Hnum)
      as (m & k & n & _ & _ & Hg & Hn & _).
    rewrite Hg.
    repeat split; try discriminate.
    + intros _; now exists n.
    + intros [s Hs]; discriminate Hs.
    + intros E; injection E as E; now apply Hn.
  - unfold getAdjusted; cbv zeta; rewrite Hnum.
    destruct (0 <? adjustedDelta block opt_delta)%Z;
      [|destruct (adjustedDelta block opt_delta <? 0)%Z];
      destruct opt_negate; cbv beta iota;
      (repeat split;
       [ discriminate
       | intros [z Hz]; discriminate Hz
       | intros _; eexists; reflexivity
       | discriminate ]).
Qed.
